(** * Matrix class with sequential and thread-partitioned multiplication

    A shallow embedding of [matrixclass.cpp]: the [Matrix] class (an
    [int rows], an [int cols] and a [std::vector<std::vector<int>>]), its
    bounds-checked accessor [at], [fill_increment_value], [multiply] and
    [multiplyParallel].

    - [int] is a 32-bit two's-complement integer, carried by [Z] with the
      wrap-around written out ([wrap]): signed overflow, undefined in C++,
      is taken as the wrap-around of the usual targets.  Division is the
      truncating C++ division ([Z.quot], [Z.rem]); dividing by zero, and
      [INT_MIN / -1], are undefined.
    - A call either returns, throws a C++ exception, or has undefined
      behaviour: the three constructors of [outcome].
    - [operator[]] on a [std::vector] is unchecked: outside the vector the
      model answers [Undefined].
    - Running out of memory ([std::bad_alloc]) and failing to start a thread
      are outside the model. *)

From Stdlib Require Import ZArith Lia Ascii String.
From stdpp Require Import base tactics option list list_numbers strings.

Local Open Scope Z_scope.

(** ** Outcomes of a call *)

Inductive exn : Set :=
| out_of_range      (* thrown by [Matrix::at] *)
| invalid_argument  (* thrown by [multiply] and [multiplyParallel] *)
| length_error.     (* thrown by [std::vector] for a size above [max_size()] *)

Inductive outcome (A : Type) : Type :=
| Ret (a : A)
| Throw (e : exn)
| Undefined.
Arguments Ret {A} a.
Arguments Throw {A} e.
Arguments Undefined {A}.

#[global] Instance outcome_ret : MRet outcome := @Ret.
#[global] Instance outcome_bind : MBind outcome := λ A B f o,
  match o with
  | Ret a => f a
  | Throw e => Throw e
  | Undefined => Undefined
  end.

(** A call that ends by an exception. *)
Definition throws {A} (o : outcome A) : Prop := ∃ e, o = Throw e.

(** [for (int i = lo; i < hi; ++i) body], as a fold of the body over
    [lo, lo+1, ..., hi-1]; an exception or undefined behaviour in the body
    ends the loop. *)
Fixpoint foldM {I S : Type} (body : I → S → outcome S) (l : list I) (s : S)
  : outcome S :=
  match l with
  | [] => Ret s
  | i :: l' => s' ← body i s; foldM body l' s'
  end.

Definition for_ {S : Type} (lo hi : Z) (body : Z → S → outcome S) (s : S)
  : outcome S :=
  foldM body (seqZ lo (hi - lo)) s.

(** ** The type [int] *)

Definition INT_MIN : Z := -2147483648.
Definition INT_MAX : Z := 2147483647.

Definition is_int (z : Z) : Prop := INT_MIN ≤ z ≤ INT_MAX.

Definition wrap (z : Z) : Z := (z + 2147483648) `mod` 4294967296 - 2147483648.

Definition int_add (a b : Z) : Z := wrap (a + b).
Definition int_sub (a b : Z) : Z := wrap (a - b).
Definition int_mul (a b : Z) : Z := wrap (a * b).

Definition int_div (a b : Z) : outcome Z :=
  if decide (b = 0) then Undefined
  else if decide (a = INT_MIN ∧ b = -1) then Undefined
  else Ret (a `quot` b).

Definition int_rem (a b : Z) : outcome Z :=
  if decide (b = 0) then Undefined
  else if decide (a = INT_MIN ∧ b = -1) then Undefined
  else Ret (a `rem` b).

(** ** Vectors *)

(** [v[i]], read. *)
Definition vec_get {A : Type} (v : list A) (i : Z) : outcome A :=
  if decide (0 ≤ i) then
    match v !! Z.to_nat i with
    | Some x => Ret x
    | None => Undefined
    end
  else Undefined.

(** [v[i] = x]. *)
Definition vec_set {A : Type} (v : list A) (i : Z) (x : A) : outcome (list A) :=
  if decide (0 ≤ i < Z.of_nat (length v)) then Ret (<[Z.to_nat i := x]> v)
  else Undefined.

(** [d[i][j]], read, and [d[i][j] = x]. *)
Definition mat_get (d : list (list Z)) (i j : Z) : outcome Z :=
  r ← vec_get d i; vec_get r j.

Definition mat_set (d : list (list Z)) (i j x : Z) : outcome (list (list Z)) :=
  r ← vec_get d i; r' ← vec_set r j x; vec_set d i r'.

(** ** The class [Matrix] *)

Record Matrix : Type := mkMatrix {
  rows : Z;
  cols : Z;
  data : list (list Z)
}.

Definition with_data (m : Matrix) (d : list (list Z)) : Matrix :=
  {| rows := rows m; cols := cols m; data := d |}.

(** [Matrix(int rows, int cols)]: [data(rows, std::vector<int>(cols, 0))].
    A negative [int] converted to [size_t] is above [max_size()], and the
    vector constructor throws; the inner vector is built first. *)
Definition Construct (r c : Z) : outcome Matrix :=
  if decide (c < 0) then Throw length_error
  else if decide (r < 0) then Throw length_error
  else Ret {| rows := r; cols := c;
              data := replicate (Z.to_nat r) (replicate (Z.to_nat c) 0) |}.

(** [at(row, col)], read through the returned reference. *)
Definition at_ (m : Matrix) (row col : Z) : outcome Z :=
  if decide (row < 0 ∨ row >= rows m ∨ col < 0 ∨ col >= cols m)
  then Throw out_of_range
  else mat_get (data m) row col.

(** [at(row, col) = v], written through the returned reference. *)
Definition at_set (m : Matrix) (row col v : Z) : outcome Matrix :=
  if decide (row < 0 ∨ row >= rows m ∨ col < 0 ∨ col >= cols m)
  then Throw out_of_range
  else d ← mat_set (data m) row col v; Ret (with_data m d).

(** [fill_increment_value]: the generator [gen] and the distribution [dis]
    are the standard library's; [dis g] is the value drawn and the next
    state of the generator.  [g] is the state [gen] is seeded with. *)
Section Fill.
Context {G : Type} (dis : G → Z * G).

(** [data[i][j] = dis(gen)] *)
Definition fill_cell (ij : Z * Z) (s : list (list Z) * G)
  : outcome (list (list Z) * G) :=
  let (v, g') := dis (snd s) in
  d ← mat_set (fst s) ij.1 ij.2 v; Ret (d, g').

Definition fill_increment_value (m : Matrix) (g : G) : outcome Matrix :=
  s ← for_ 0 (rows m) (λ i,
        for_ 0 (cols m) (λ j, fill_cell (i, j))) (data m, g);
  Ret (with_data m (fst s)).

(** The state of the generator after [k] draws. *)
Fixpoint draw_state (g : G) (k : nat) : G :=
  match k with
  | O => g
  | S k' => draw_state (snd (dis g)) k'
  end.

(** The [k]-th value drawn, counting from 0. *)
Definition drawn (g : G) (k : nat) : Z := fst (dis (draw_state g k)).

End Fill.

(** ** Multiplication *)

(** The three objects a multiplication works on: [*this], [other] and the
    local [result]. *)
Record Frame : Type := mkFrame {
  this_ : Matrix;
  other_ : Matrix;
  result_ : Matrix
}.

(** [result.data[i][j] += this->data[i][k] * other.data[k][j]] *)
Definition accumulate (i j k : Z) (f : Frame) : outcome Frame :=
  a ← mat_get (data (this_ f)) i k;
  b ← mat_get (data (other_ f)) k j;
  c ← mat_get (data (result_ f)) i j;
  d ← mat_set (data (result_ f)) i j (int_add c (int_mul a b));
  Ret {| this_ := this_ f; other_ := other_ f;
         result_ := with_data (result_ f) d |}.

Definition multiply_frame (A B : Matrix) : outcome Frame :=
  if decide (cols A ≠ rows B) then Throw invalid_argument
  else
    result ← Construct (rows A) (cols B);
    for_ 0 (rows A) (λ i,
      for_ 0 (cols B) (λ j,
        for_ 0 (cols A) (λ k, accumulate i j k)))
      {| this_ := A; other_ := B; result_ := result |}.

Definition multiply (A B : Matrix) : outcome Matrix :=
  f ← multiply_frame A B; Ret (result_ f).

(** The index range of worker [i]: [start] and [end] of the lambda. *)
Definition worker_start (elements_per_thread i : Z) : Z :=
  int_mul i elements_per_thread.

Definition worker_end (total num_threads elements_per_thread i : Z) : Z :=
  if decide (i = int_sub num_threads 1) then total
  else int_mul (int_add i 1) elements_per_thread.

(** The body of the loop over [index]. *)
Definition cell_task (index : Z) (f : Frame) : outcome Frame :=
  row ← int_div index (cols (other_ f));
  col ← int_rem index (cols (other_ f));
  for_ 0 (cols (this_ f)) (λ k, accumulate row col k) f.

(** The lambda run by thread [i]. *)
Definition worker (num_threads elements_per_thread i : Z) (f : Frame)
  : outcome Frame :=
  let start := worker_start elements_per_thread i in
  let end_ := worker_end (int_mul (rows (this_ f)) (cols (other_ f)))
                num_threads elements_per_thread i in
  for_ start end_ cell_task f.

(** [multiplyParallel], the workers taken in the order they are spawned. *)
Definition multiplyParallel_frame (A B : Matrix) (num_threads : Z)
  : outcome Frame :=
  if decide (cols A ≠ rows B) then Throw invalid_argument
  else
    result ← Construct (rows A) (cols B);
    elements_per_thread ← int_div (int_mul (rows A) (cols B)) num_threads;
    for_ 0 num_threads (worker num_threads elements_per_thread)
      {| this_ := A; other_ := B; result_ := result |}.

Definition multiplyParallel (A B : Matrix) (num_threads : Z) : outcome Matrix :=
  f ← multiplyParallel_frame A B num_threads; Ret (result_ f).

(** ** Specification vocabulary *)

(** The cell [(i, j)] of a vector of vectors, [0] outside it. *)
Definition cell (d : list (list Z)) (i j : Z) : Z :=
  default 0 (d !! Z.to_nat i ≫= λ r, r !! Z.to_nat j).

(** [n] rows of [m] cells each. *)
Definition shape (n m : Z) (d : list (list Z)) : Prop :=
  Z.of_nat (length d) = n ∧ Forall (λ r, Z.of_nat (length r) = m) d.

(** Every cell satisfies [P]. *)
Definition all_cells (P : Z → Prop) (d : list (list Z)) : Prop :=
  Forall (Forall P) d.

(** The class invariant: the storage has [rows] rows and [cols] columns,
    and every number is an [int]. *)
Definition wf (m : Matrix) : Prop :=
  0 ≤ rows m ≤ INT_MAX ∧ 0 ≤ cols m ≤ INT_MAX ∧
  shape (rows m) (cols m) (data m) ∧ all_cells is_int (data m).

#[global] Instance is_int_dec z : Decision (is_int z).
Proof. unfold is_int. apply _. Defined.

#[global] Instance wf_dec m : Decision (wf m).
Proof. unfold wf, shape, all_cells. apply _. Defined.

(** [f 0 + f 1 + ... + f (n - 1)], in the integers. *)
Definition sum_to (n : Z) (f : Z → Z) : Z :=
  foldr Z.add 0 (f <$> seqZ 0 n).

(** The inner product of row [i] of [A] and column [j] of [B], in the
    integers. *)
Definition inner (A B : Matrix) (i j : Z) : Z :=
  sum_to (cols A) (λ k, cell (data A) i k * cell (data B) k j).

(** The same inner product the way the loop over [k] computes it, every
    product and every sum wrapped to [int]. *)
Definition inner_int (A B : Matrix) (i j : Z) (acc : Z) (ks : list Z) : Z :=
  foldl (λ acc k, int_add acc (int_mul (cell (data A) i k) (cell (data B) k j)))
        acc ks.

(** One execution of the innermost statement
    [result.data[row][col] += this->data[row][k] * other.data[k][col]],
    named by [(row, col, k)]. *)
Definition op : Type := Z * Z * Z.

Definition exec_op (o : op) (f : Frame) : outcome Frame :=
  let '(i, j, k) := o in accumulate i j k f.

(** The statement stays inside the three matrices. *)
Definition op_ok (A B : Matrix) (o : op) : Prop :=
  let '(i, j, k) := o in 0 ≤ i < rows A ∧ 0 ≤ j < cols B ∧ 0 ≤ k < cols A.

(** The statements [multiply] executes, in its order. *)
Definition seq_ops (A B : Matrix) : list op :=
  i ← seqZ 0 (rows A); j ← seqZ 0 (cols B);
  (λ k, (i, j, k)) <$> seqZ 0 (cols A).

(** The values of [k] with which a run of statements updates the cell
    [(i, j)], in the order of the run. *)
Definition contrib (i j : Z) (ops : list op) : list Z :=
  omap (λ o : op, let '(i', j', k) := o in
                  if decide (i' = i ∧ j' = j) then Some k else None) ops.

(** The indices worker [i] visits: [start], [start + 1], ..., [end - 1]. *)
Definition worker_indices (total num_threads elements_per_thread i : Z)
  : list Z :=
  seqZ (worker_start elements_per_thread i)
       (worker_end total num_threads elements_per_thread i
        - worker_start elements_per_thread i).

(** The statements executed for one index, and by one worker. *)
Definition cell_ops (A B : Matrix) (index : Z) : list op :=
  (λ k, (index `quot` cols B, index `rem` cols B, k)) <$> seqZ 0 (cols A).

Definition worker_ops (A B : Matrix) (num_threads elements_per_thread i : Z)
  : list op :=
  worker_indices (int_mul (rows A) (cols B)) num_threads elements_per_thread i
    ≫= cell_ops A B.

(** The statements [multiplyParallel] executes, worker after worker. *)
Definition par_ops (A B : Matrix) (num_threads : Z) : list op :=
  seqZ 0 num_threads
    ≫= worker_ops A B num_threads (int_mul (rows A) (cols B) `quot` num_threads).

(** The threads run concurrently.  A schedule picks, at each step, a worker
    that has not finished, and that worker executes its next statement:
    [interleaving ts l] says that [l] is such a merge of the statement
    sequences [ts].  A step is one statement, since no two workers name the
    same cell of [result] (lemma [workers_disjoint]) and no statement writes
    anything else. *)
Inductive interleaving {X : Type} : list (list X) → list X → Prop :=
| interleaving_done ts : Forall (λ t, t = []) ts → interleaving ts []
| interleaving_step ts i x t l :
    ts !! i = Some (x :: t) → interleaving (<[i := t]> ts) l →
    interleaving ts (x :: l).

(** The statement sequence of each worker. *)
Definition workers_ops (A B : Matrix) (num_threads : Z) : list (list op) :=
  worker_ops A B num_threads (int_mul (rows A) (cols B) `quot` num_threads)
    <$> seqZ 0 num_threads.

(** [multiplyParallel] under a given schedule [sched] of the statements of
    its workers; the [join] loop returns once all of them are executed. *)
Definition multiplyParallel_sched (A B : Matrix) (num_threads : Z)
    (sched : list op) : outcome Matrix :=
  if decide (cols A ≠ rows B) then Throw invalid_argument
  else
    result ← Construct (rows A) (cols B);
    _ ← int_div (int_mul (rows A) (cols B)) num_threads;
    f ← foldM exec_op sched {| this_ := A; other_ := B; result_ := result |};
    Ret (result_ f).

(** A schedule of two workers on a 2 x 2 result that is not one worker
    after the other. *)
Definition alternating : list op :=
  [(0, 0, 0); (1, 0, 0); (0, 0, 1); (1, 0, 1);
   (0, 1, 0); (1, 1, 0); (1, 1, 1); (0, 1, 1)].

(** The matrix [Matrix(r, c)] holds: [r] rows of [c] zeros. *)
Definition zero_matrix (r c : Z) : Matrix :=
  mkMatrix r c (replicate (Z.to_nat r) (replicate (Z.to_nat c) 0)).

(** Two operands whose product has 46341 * 46341 = 2147488281 cells, more
    than [INT_MAX]: a column and a row of 46341 ones. *)
Definition ones_column : Matrix :=
  mkMatrix 46341 1 (replicate (Z.to_nat 46341) [1]).
Definition ones_row : Matrix :=
  mkMatrix 1 46341 [replicate (Z.to_nat 46341) 1].

(** The shapes of the mismatch test: 2 x 3 and 4 x 2. *)
Definition m23 : Matrix := zero_matrix 2 3.
Definition m42 : Matrix := zero_matrix 4 2.

(** The cells [fill_increment_value] writes, in its order. *)
Definition fill_ops (r c : Z) : list (Z * Z) :=
  i ← seqZ 0 r; (λ j, (i, j)) <$> seqZ 0 c.

(** The matrices a program can hold: built by the constructor, and passed
    through the public member functions.  The arguments are [int]s. *)
Inductive reachable {G : Type} (dis : G → Z * G) : Matrix → Prop :=
| reach_Construct r c m :
    is_int r → is_int c → Construct r c = Ret m → reachable dis m
| reach_fill m g m' :
    reachable dis m → fill_increment_value dis m g = Ret m' → reachable dis m'
| reach_at_set m row col v m' :
    reachable dis m → is_int v → at_set m row col v = Ret m' →
    reachable dis m'
| reach_multiply A B C :
    reachable dis A → reachable dis B → multiply A B = Ret C →
    reachable dis C
| reach_multiplyParallel A B n C :
    reachable dis A → reachable dis B → is_int n →
    multiplyParallel A B n = Ret C → reachable dis C.

(** A stand-in for the generator and the distribution: a counter, and its
    last digit plus one. *)
Definition counter_dis (g : Z) : Z * Z := (1 + g `mod` 10, g + 1).

(** The operands of the specification's scenario. *)
Definition mA : Matrix := mkMatrix 2 2 [[1; 2]; [3; 4]].
Definition mB : Matrix := mkMatrix 2 2 [[5; 6]; [7; 8]].

(** ** The identity matrix *)

(** The identity matrix of size [n], built the way a caller has to build it:
    [Matrix I(n, n)] and [I.at(i, i) = 1] for each [i]. *)
Definition identity (n : Z) : outcome Matrix :=
  m ← Construct n n; foldM (λ i m, at_set m i i 1) (seqZ 0 n) m.

(** ** The driver: [demo], [SafeIntInput] and [main] *)

(** What is written to [cout]: text, the count of a [chrono] duration (a
    floating-point number read off the clock, left out of the model), the
    text [e.what()] of a caught exception, and [endl]. *)
Inductive out : Type :=
| Text (s : string)
| Duration
| What (e : exn)
| Endl.

(** A computation that writes to [cout]: what it wrote, and how it ended. *)
Definition io (A : Type) : Type := list out * outcome A.

Definition io_bind {A B : Type} (f : A → io B) (m : io A) : io B :=
  match m with
  | (o, Ret a) => let (o', r) := f a in (o ++ o', r)
  | (o, Throw e) => (o, Throw e)
  | (o, Undefined) => (o, Undefined)
  end.

(** A computation that writes nothing, and a write. *)
Definition quiet {A : Type} (r : outcome A) : io A := ([], r).
Definition print (l : list out) : io unit := (l, Ret tt).

(** The validation loops of [demo]: the loop over [j] stops at the first
    cell where the two results differ, and the loop over [i] stops after
    such a row. *)
Fixpoint validate_row (resultSingle resultMulti : Matrix) (i : Z)
    (js : list Z) : outcome bool :=
  match js with
  | [] => Ret true
  | j :: js' =>
      a ← at_ resultSingle i j;
      b ← at_ resultMulti i j;
      if decide (a ≠ b) then Ret false
      else validate_row resultSingle resultMulti i js'
  end.

Fixpoint validate_rows (resultSingle resultMulti : Matrix) (col_2 : Z)
    (rs : list Z) : outcome bool :=
  match rs with
  | [] => Ret true
  | i :: rs' =>
      valid ← validate_row resultSingle resultMulti i (seqZ 0 col_2);
      if valid : bool then validate_rows resultSingle resultMulti col_2 rs'
      else Ret false
  end.

Definition validate (resultSingle resultMulti : Matrix) (row_1 col_2 : Z)
  : outcome bool :=
  validate_rows resultSingle resultMulti col_2 (seqZ 0 row_1).

Section Demo.
Context {G : Type} (dis : G → Z * G).

(** [demo]; [gA] and [gB] are the states the generators of the two fills
    are seeded with. *)
Definition demo (row_1 col_1 row_2 col_2 num_threads : Z) (gA gB : G) : io Z :=
  io_bind (λ '(matrixA, matrixB),
  io_bind (λ resultSingle,
  io_bind (λ _ : unit,
  io_bind (λ resultMulti,
  io_bind (λ _ : unit,
  io_bind (λ _ : unit,
  io_bind (λ valid : bool,
  io_bind (λ _ : unit, quiet (Ret 0))
    (print [Text (if valid then "Results are identical!"
                  else "Results differ!"); Endl]))
    (quiet (validate resultSingle resultMulti row_1 col_2)))
    (print [Text "Validating results..."; Endl]))
    (print [Text "Multithreaded multiplication took "; Duration;
            Text " ms."; Endl]))
    (quiet (multiplyParallel matrixA matrixB num_threads)))
    (print [Text "Single-threaded multiplication took "; Duration;
            Text " ms."; Endl]))
    (quiet (multiply matrixA matrixB)))
    (quiet (matrixA ← Construct row_1 col_1;
            matrixA ← fill_increment_value dis matrixA gA;
            matrixB ← Construct row_2 col_2;
            matrixB ← fill_increment_value dis matrixB gB;
            Ret (matrixA, matrixB))).

End Demo.

(** What [demo] has written when it returns, [valid] being the outcome of
    its validation. *)
Definition demo_report (valid : bool) : list out :=
  [Text "Single-threaded multiplication took "; Duration; Text " ms."; Endl;
   Text "Multithreaded multiplication took "; Duration; Text " ms."; Endl;
   Text "Validating results..."; Endl;
   Text (if valid then "Results are identical!" else "Results differ!"); Endl].

(** [tolower] in the "C" locale. *)
Definition tolower (c : ascii) : ascii :=
  let n := nat_of_ascii c in
  if (65 <=? n)%nat && (n <=? 90)%nat then ascii_of_nat (n + 32) else c.

Definition is_char (c d : ascii) : bool := bool_decide (c = d).

(** The variables of [main]. *)
Record vars : Type := mkVars {
  row_1 : Z;
  col_1 : Z;
  row_2 : Z;
  col_2 : Z;
  num_threads : Z;
  QUIT : ascii
}.

(** The standard input is a state [cin] of a type [In] with the operations
    the driver uses, all of them the standard library's:
    [extract_int cin v] is [cin >> input] for an [int] that holds [v], the
    stream after it and the value the variable holds then;
    [extract_char] the same for a [char]; [fail], [clear] and [ignore_line]
    are [cin.fail()], [cin.clear()] and
    [cin.ignore(numeric_limits<streamsize>::max(), '\n')].
    The loops that wait for a valid input need not terminate: they take a
    bound [fuel] on the number of their iterations and answer [None] when it
    is used up. *)
Section Driver.
Context {G In : Type} (dis : G → Z * G).
Context (extract_int : In → Z → In * Z) (extract_char : In → ascii → In * ascii).
Context (fail : In → bool) (clear ignore_line : In → In).
(** The seeds [random_device] gives to the two fills of the [t]-th call of
    [demo]. *)
Context (seeds : nat → G * G).

(** The [while] loop of [SafeIntInput], entered with the stream and the
    variable as the last extraction left them. *)
Fixpoint SafeIntInput_retry (fuel : nat) (info : string) (cin : In) (input : Z)
  : option (list out * (In * Z)) :=
  if fail cin || bool_decide (input < 1) then
    match fuel with
    | O => None
    | S fuel' =>
        let (cin', input') := extract_int (ignore_line (clear cin)) input in
        match SafeIntInput_retry fuel' info cin' input' with
        | Some (o, r) => Some (Text "Invalid input. " :: Text info :: o, r)
        | None => None
        end
    end
  else Some ([], (cin, input)).

Definition SafeIntInput (fuel : nat) (input : Z) (info : string) (cin : In)
  : option (list out * (In * Z)) :=
  let (cin', input') := extract_int cin input in
  match SafeIntInput_retry fuel info cin' input' with
  | Some (o, r) => Some (Text info :: o, r)
  | None => None
  end.

(** The stream and the variable after the first extraction of
    [SafeIntInput] and [k] more. *)
Fixpoint attempt (cin : In) (input : Z) (k : nat) : In * Z :=
  match k with
  | O => extract_int cin input
  | S k' =>
      let (cin', input') := attempt cin input k' in
      extract_int (ignore_line (clear cin')) input'
  end.

(** An extraction [SafeIntInput] accepts. *)
Definition accepted (r : In * Z) : Prop := fail r.1 = false ∧ 1 ≤ r.2.

(** The loop of [main] that waits for Y or N. *)
Fixpoint quit_retry (fuel : nat) (cin : In) (quit : ascii)
  : option (list out * (In * ascii)) :=
  let (cin', quit') := extract_char cin quit in
  if fail cin'
     || negb (is_char (tolower quit') "y" || is_char (tolower quit') "n") then
    match fuel with
    | O => None
    | S fuel' =>
        match quit_retry fuel' (ignore_line (clear cin')) quit' with
        | Some (o, r) =>
            Some (Text "Invalid input: the input must be either Y or N. Quit (Y/N):"
                    :: o, r)
        | None => None
        end
    end
  else Some ([], (cin', quit')).

(** [main], with the function it calls for [demo] as a parameter [d]; [t]
    counts the calls. *)
Fixpoint main_loop (d : Z → Z → Z → Z → Z → G → G → io Z)
    (fuel t : nat) (cin : In) (v : vars) : option (io Z) :=
  match fuel with
  | O => None
  | S fuel' =>
      if is_char (tolower (QUIT v)) "y" then Some ([], Ret 0)
      else
        '(o1, (cin, r1)) ← SafeIntInput fuel' (row_1 v)
            "Enter the number of rows of Matrix A: " cin;
        '(o2, (cin, c1)) ← SafeIntInput fuel' (col_1 v)
            "Enter the number of cols of Matrix A: " cin;
        '(o3, (cin, r2)) ← SafeIntInput fuel' (row_2 v)
            "Enter the number of rows of Matrix B: " cin;
        '(o4, (cin, c2)) ← SafeIntInput fuel' (col_2 v)
            "Enter the number of cols of Matrix B: " cin;
        '(o5, (cin, n)) ← SafeIntInput fuel' (num_threads v)
            "Enter the number of threads: " cin;
        let inputs := o1 ++ o2 ++ o3 ++ o4 ++ o5 in
        match d r1 c1 r2 c2 n (seeds t).1 (seeds t).2 with
        | (od, Undefined) => Some (inputs ++ od, Undefined)
        | (od, r) =>
            let caught :=
              match r with Throw e => [What e; Endl] | _ => [] end in
            '(oq, (cin, quit)) ← quit_retry fuel' cin (QUIT v);
            '(rest, res) ← main_loop d fuel' (S t) cin
                             (mkVars r1 c1 r2 c2 n quit);
            Some (inputs ++ od ++ caught ++ [Text "Quit (Y/N): "] ++ oq
                    ++ [Endl] ++ rest, res)
        end
  end.

Definition main_with (d : Z → Z → Z → Z → Z → G → G → io Z) (fuel : nat)
    (cin : In) : option (io Z) :=
  main_loop d fuel 0 cin (mkVars 0 0 0 0 2 "N").


End Driver.

(** A standard input to run the driver on: the extractions left to come,
    each an [int], a [char], or text that is neither; and the fail bit. *)
Inductive token : Type :=
| TInt (z : Z)
| TChar (c : ascii)
| TJunk.

Definition test_in : Type := list token * bool.

Definition test_extract_int (cin : test_in) (v : Z) : test_in * Z :=
  match cin with
  | (_, true) => (cin, v)
  | (TInt z :: rest, false) => ((rest, false), wrap z)
  | (_ :: rest, false) => ((rest, true), 0)
  | ([], false) => (([], true), v)
  end.

Definition test_extract_char (cin : test_in) (c : ascii) : test_in * ascii :=
  match cin with
  | (_, true) => (cin, c)
  | (TChar d :: rest, false) => ((rest, false), d)
  | (_ :: rest, false) => ((rest, false), "?"%char)
  | ([], false) => (([], true), c)
  end.

Definition test_fail (cin : test_in) : bool := cin.2.
Definition test_clear (cin : test_in) : test_in := (cin.1, false).
Definition test_ignore_line (cin : test_in) : test_in := cin.

(** A session: 2 x 3 times 4 x 2 (a mismatch), answered "n", then 1 x 1
    times 1 x 1 with one thread after some refused inputs, answered "Y". *)
Definition test_session : test_in :=
  ([TInt 2; TInt 3; TInt 4; TInt 2; TInt 2; TChar "n";
    TJunk; TInt 0; TInt 1; TInt 1; TInt 1; TInt 1; TInt 1; TChar "x"; TChar "Y"],
   false).

Definition test_seeds (t : nat) : Z * Z := (Z.of_nat t, 7).

(** [demo], made to go wrong on every argument below 1. *)
Definition guarded_demo (r1 c1 r2 c2 n : Z) (gA gB : Z) : io Z :=
  if decide (1 ≤ r1 ∧ 1 ≤ c1 ∧ 1 ≤ r2 ∧ 1 ≤ c2 ∧ 1 ≤ n)
  then demo counter_dis r1 c1 r2 c2 n gA gB
  else ([], Undefined).

(** * Properties *)

(** ** [int] arithmetic *)

Lemma wrap_id z : is_int z → wrap z = z.
Proof.
  unfold is_int, INT_MIN, INT_MAX, wrap. intros Hz.
  rewrite Z.mod_small by lia. lia.
Qed.

Lemma wrap_is_int z : is_int (wrap z).
Proof.
  unfold is_int, INT_MIN, INT_MAX, wrap.
  pose proof (Z.mod_pos_bound (z + 2147483648) 4294967296). lia.
Qed.

Lemma wrap_add_l a b : wrap (wrap a + b) = wrap (a + b).
Proof.
  unfold wrap. f_equal.
  replace ((a + 2147483648) `mod` 4294967296 - 2147483648 + b + 2147483648)
    with ((a + 2147483648) `mod` 4294967296 + b) by lia.
  rewrite Zplus_mod_idemp_l. f_equal. lia.
Qed.

(** A product that does not fit wraps to something smaller. *)
Lemma wrap_le z : 0 ≤ z → wrap z ≤ z.
Proof.
  intros Hz. destruct (decide (z ≤ INT_MAX)) as [Hle|Hgt].
  - rewrite wrap_id; [lia | unfold is_int, INT_MIN; lia].
  - pose proof (wrap_is_int z) as [_ Hw]. lia.
Qed.

(** ** Loops *)

Lemma foldM_app {I S} (body : I → S → outcome S) l1 l2 s :
  foldM body (l1 ++ l2) s = foldM body l1 s ≫= foldM body l2.
Proof.
  revert s. induction l1 as [|i l1 IH]; intros s; simpl; [done|].
  destruct (body i s); simpl; auto.
Qed.

(** A loop nest is one loop over the pairs of indices. *)
Lemma foldM_bind {I J S} (body : J → S → outcome S) (h : I → list J) l s :
  foldM (λ i, foldM body (h i)) l s = foldM body (l ≫= h) s.
Proof.
  revert s. induction l as [|i l IH]; intros s; [done|].
  change ((i :: l) ≫= h) with (h i ++ (l ≫= h)).
  rewrite foldM_app. simpl. destruct (foldM body (h i) s); simpl; auto.
Qed.

Lemma foldM_fmap {I J S} (body : J → S → outcome S) (g : I → J) l s :
  foldM body (g <$> l) s = foldM (λ i, body (g i)) l s.
Proof.
  revert s. induction l as [|i l IH]; intros s; simpl; [done|].
  destruct (body (g i) s); simpl; auto.
Qed.

(** Two bodies that agree on the states an invariant describes give the
    same loop. *)
Lemma foldM_ext_inv {I S} (Inv : S → Prop) (b1 b2 : I → S → outcome S) l s :
  (∀ i s s', i ∈ l → Inv s → b1 i s = Ret s' → Inv s') →
  (∀ i s, i ∈ l → Inv s → b1 i s = b2 i s) →
  Inv s → foldM b1 l s = foldM b2 l s.
Proof.
  revert s. induction l as [|i l IH]; intros s Hpres Heq Hs; simpl; [done|].
  rewrite <- (Heq i s) by (auto; left).
  destruct (b1 i s) as [s'| |] eqn:E; simpl; auto.
  apply IH.
  - intros. eapply Hpres; eauto. by right.
  - intros. apply Heq; auto. by right.
  - eapply (Hpres i s s'); auto. left.
Qed.

(** An invariant of the body is an invariant of the loop. *)
Lemma foldM_inv {I S} (Inv : S → Prop) (body : I → S → outcome S) l s s' :
  (∀ i s s', i ∈ l → Inv s → body i s = Ret s' → Inv s') →
  Inv s → foldM body l s = Ret s' → Inv s'.
Proof.
  revert s. induction l as [|i l IH]; intros s Hpres Hs; simpl.
  - by intros [= <-].
  - destruct (body i s) as [s1| |] eqn:E; simpl; try done.
    apply IH.
    + intros. eapply Hpres; eauto. by right.
    + eapply (Hpres i s s1); auto. left.
Qed.

(** A loop whose body never throws never throws. *)
Lemma foldM_no_throw {I S} (body : I → S → outcome S) l s :
  (∀ i s, ¬ throws (body i s)) → ¬ throws (foldM body l s).
Proof.
  intros Hb. revert s. induction l as [|i l IH]; intros s; simpl.
  - by intros [e ?].
  - destruct (body i s) as [s1| |] eqn:E; simpl; auto.
    + intros _. apply (Hb i s). rewrite E. by eexists.
    + by intros [e ?].
Qed.

(** ** Vectors of vectors *)

Lemma shape_lookup n m d i :
  shape n m d → 0 ≤ i < n →
  ∃ r, d !! Z.to_nat i = Some r ∧ Z.of_nat (length r) = m.
Proof.
  intros [Hlen Hrows] Hi.
  destruct (lookup_lt_is_Some_2 d (Z.to_nat i)) as [r Hr]; [lia|].
  exists r. split; [done|].
  by apply (Forall_lookup_1 _ _ _ _ Hrows Hr).
Qed.

Lemma mat_get_cell n m d i j :
  shape n m d → 0 ≤ i < n → 0 ≤ j < m → mat_get d i j = Ret (cell d i j).
Proof.
  intros Hd Hi Hj. destruct (shape_lookup n m d i Hd Hi) as (r & Hr & Hlen).
  destruct (lookup_lt_is_Some_2 r (Z.to_nat j)) as [x Hx]; [lia|].
  unfold mat_get, cell, vec_get. rewrite decide_True by lia. rewrite Hr. simpl.
  rewrite decide_True by lia. by rewrite Hx.
Qed.

Lemma mat_set_spec n m d i j x :
  shape n m d → 0 ≤ i < n → 0 ≤ j < m →
  ∃ d', mat_set d i j x = Ret d' ∧ shape n m d' ∧
    (∀ i' j', 0 ≤ i' → 0 ≤ j' →
       cell d' i' j' = if decide (i' = i ∧ j' = j) then x else cell d i' j') ∧
    (∀ P : Z → Prop, all_cells P d → P x → all_cells P d').
Proof.
  intros Hd Hi Hj. destruct (shape_lookup n m d i Hd Hi) as (r & Hr & Hlen).
  destruct Hd as [Hn Hrows].
  exists (<[Z.to_nat i := <[Z.to_nat j := x]> r]> d). repeat split.
  - unfold mat_set, vec_get, vec_set. rewrite decide_True by lia. rewrite Hr.
    simpl. rewrite decide_True by lia. simpl. by rewrite decide_True by lia.
  - by rewrite length_insert.
  - apply Forall_insert; [done|]. by rewrite length_insert.
  - intros i' j' Hi' Hj'. unfold cell.
    destruct (decide (i' = i)) as [->|Hne].
    + rewrite list_lookup_insert_eq by lia. rewrite Hr. simpl.
      destruct (decide (j' = j)) as [->|Hne'].
      * rewrite decide_True by done.
        by rewrite list_lookup_insert_eq by lia.
      * rewrite decide_False by (intros [_ ?]; done).
        by rewrite list_lookup_insert_ne by lia.
    + rewrite decide_False by (intros [? _]; done).
      by rewrite list_lookup_insert_ne by lia.
  - intros P Hall Hx. unfold all_cells in *.
    apply Forall_insert; [done|]. apply Forall_insert; [|done].
    by apply (Forall_lookup_1 _ _ _ _ Hall Hr).
Qed.

(** A vector of vectors is its shape and its cells. *)
Lemma shape_ext n m d1 d2 :
  shape n m d1 → shape n m d2 →
  (∀ i j, 0 ≤ i < n → 0 ≤ j < m → cell d1 i j = cell d2 i j) →
  d1 = d2.
Proof.
  intros [Hn1 Hr1] [Hn2 Hr2] Hcell.
  apply list_eq_same_length with (length d1); [lia|done|].
  intros i r1 r2 Hi H1 H2.
  pose proof (Forall_lookup_1 _ _ _ _ Hr1 H1) as Hl1.
  pose proof (Forall_lookup_1 _ _ _ _ Hr2 H2) as Hl2. simpl in *.
  apply list_eq_same_length with (length r1); [lia|done|].
  intros j x1 x2 Hj Hx1 Hx2.
  specialize (Hcell (Z.of_nat i) (Z.of_nat j)). unfold cell in Hcell.
  rewrite !Nat2Z.id, H1, H2 in Hcell. simpl in Hcell.
  rewrite Hx1, Hx2 in Hcell. simpl in Hcell. apply Hcell; lia.
Qed.

Lemma shape_replicate r c x :
  0 ≤ r → 0 ≤ c → shape r c (replicate (Z.to_nat r) (replicate (Z.to_nat c) x)).
Proof.
  intros Hr Hc. split.
  - rewrite length_replicate. lia.
  - apply Forall_replicate. rewrite length_replicate. lia.
Qed.

Lemma cell_replicate r c x i j :
  0 ≤ i < r → 0 ≤ j < c →
  cell (replicate (Z.to_nat r) (replicate (Z.to_nat c) x)) i j = x.
Proof.
  intros Hi Hj. unfold cell.
  rewrite lookup_replicate_2 by lia. simpl.
  by rewrite lookup_replicate_2 by lia.
Qed.

(** ** The innermost statement *)

Lemma accumulate_spec A B R i j k :
  shape (rows A) (cols A) (data A) → shape (rows B) (cols B) (data B) →
  cols A = rows B →
  shape (rows A) (cols B) (data R) →
  op_ok A B (i, j, k) →
  ∃ d, accumulate i j k (mkFrame A B R) = Ret (mkFrame A B (with_data R d)) ∧
    shape (rows A) (cols B) d ∧
    (∀ i' j', 0 ≤ i' → 0 ≤ j' →
       cell d i' j' =
         if decide (i' = i ∧ j' = j)
         then int_add (cell (data R) i j)
                (int_mul (cell (data A) i k) (cell (data B) k j))
         else cell (data R) i' j') ∧
    (all_cells is_int (data R) → all_cells is_int d).
Proof.
  intros HA HB Hdim HR (Hi & Hj & Hk).
  destruct (mat_set_spec _ _ (data R) i j
              (int_add (cell (data R) i j)
                 (int_mul (cell (data A) i k) (cell (data B) k j))) HR Hi Hj)
    as (d & Hset & Hshape & Hcell & Hall).
  exists d. split_and!; auto.
  - unfold accumulate. simpl.
    rewrite (mat_get_cell _ _ _ _ _ HA) by lia. simpl.
    rewrite (mat_get_cell _ _ _ _ _ HB) by lia. simpl.
    rewrite (mat_get_cell _ _ _ _ _ HR) by lia. simpl.
    by rewrite Hset.
  - intros H. apply Hall; [done|]. apply wrap_is_int.
Qed.

(** The innermost statement never writes to [*this] or to [other], and never
    changes the dimensions recorded in [result]. *)
Lemma accumulate_frame i j k f f' :
  accumulate i j k f = Ret f' →
  this_ f' = this_ f ∧ other_ f' = other_ f ∧
  rows (result_ f') = rows (result_ f) ∧ cols (result_ f') = cols (result_ f).
Proof.
  unfold accumulate. intros H.
  destruct (mat_get (data (this_ f)) i k); simpl in H; try done.
  destruct (mat_get (data (other_ f)) k j); simpl in H; try done.
  destruct (mat_get (data (result_ f)) i j); simpl in H; try done.
  destruct (mat_set (data (result_ f)) i j _); simpl in H; try done.
  by injection H as <-.
Qed.

Lemma accumulate_no_throw i j k f : ¬ throws (accumulate i j k f).
Proof.
  intros [e H]. unfold accumulate, mat_get, mat_set, vec_get, vec_set in H.
  repeat (first [ case_decide | case_match ]; simpl in H; try done).
Qed.

(** ** Runs of statements *)

Lemma contrib_app i j l1 l2 : contrib i j (l1 ++ l2) = contrib i j l1 ++ contrib i j l2.
Proof. apply omap_app. Qed.

(** A run of statements that stay inside the matrices returns; [*this] and
    [other] are as before, and each cell of [result] has received the
    products of the statements that name it. *)
Lemma run_ops_spec A B ops : ∀ R,
  shape (rows A) (cols A) (data A) → shape (rows B) (cols B) (data B) →
  cols A = rows B →
  shape (rows A) (cols B) (data R) →
  Forall (op_ok A B) ops →
  ∃ d, foldM exec_op ops (mkFrame A B R) = Ret (mkFrame A B (with_data R d)) ∧
    shape (rows A) (cols B) d ∧
    (∀ i j, 0 ≤ i → 0 ≤ j →
       cell d i j = inner_int A B i j (cell (data R) i j) (contrib i j ops)) ∧
    (all_cells is_int (data R) → all_cells is_int d).
Proof.
  induction ops as [|[[i j] k] ops IH]; intros R HA HB Hdim HR Hok.
  - exists (data R). split_and!; auto. by destruct R.
  - apply Forall_cons in Hok as [Ho Hok].
    destruct (accumulate_spec A B R i j k HA HB Hdim HR Ho)
      as (d1 & Hrun1 & Hs1 & Hc1 & Hi1).
    destruct (IH (with_data R d1) HA HB Hdim Hs1 Hok)
      as (d & Hrun & Hs & Hc & Hi).
    exists d. split_and!; auto.
    + simpl. rewrite Hrun1. simpl. exact Hrun.
    + intros i' j' Hi' Hj'. rewrite (Hc i' j' Hi' Hj'). simpl.
      rewrite (Hc1 i' j' Hi' Hj').
      destruct (decide (i = i' ∧ j = j')) as [[-> ->]|Hne].
      * by rewrite decide_True by done.
      * rewrite decide_False; [done|]. intros [-> ->]. by apply Hne.
Qed.

Lemma foldM_ext {I S} (b1 b2 : I → S → outcome S) l s :
  (∀ i s, b1 i s = b2 i s) → foldM b1 l s = foldM b2 l s.
Proof.
  intros H. apply (foldM_ext_inv (λ _, True)); auto.
Qed.

Lemma omap_bind_list {X Y W} (f : Y → option W) (h : X → list Y) (l : list X) :
  omap f (l ≫= h) = l ≫= (λ x, omap f (h x)).
Proof.
  induction l as [|x l IH]; [done|].
  change ((x :: l) ≫= h) with (h x ++ (l ≫= h)).
  rewrite omap_app, IH. done.
Qed.

Lemma bind_nil {X Y} (g : X → list Y) (l : list X) :
  (∀ y, y ∈ l → g y = []) → l ≫= g = [].
Proof.
  induction l as [|y l IH]; intros Hnil; [done|].
  change ((y :: l) ≫= g) with (g y ++ (l ≫= g)).
  rewrite (Hnil y) by left. rewrite IH; [done|].
  intros z Hz. apply Hnil. by right.
Qed.

(** In a concatenation where one index alone contributes, only its part is
    left. *)
Lemma bind_single {X Y} (g : X → list Y) (l : list X) (x : X) :
  NoDup l → x ∈ l → (∀ y, y ∈ l → y ≠ x → g y = []) → l ≫= g = g x.
Proof.
  induction l as [|y l IH]; intros Hnd Hin Hnil.
  - by apply elem_of_nil in Hin.
  - apply NoDup_cons in Hnd as [Hy Hnd].
    change ((y :: l) ≫= g) with (g y ++ (l ≫= g)).
    apply elem_of_cons in Hin as [->|Hin].
    + rewrite bind_nil; [by rewrite app_nil_r|].
      intros z Hz. apply Hnil; [by right|]. intros ->. by apply Hy.
    + rewrite (Hnil y); [|left|intros ->; by apply Hy].
      apply IH; auto. intros w Hw. apply Hnil. by right.
Qed.

Lemma contrib_cell_same i j ks : contrib i j ((λ k, (i, j, k)) <$> ks) = ks.
Proof.
  induction ks as [|k ks IH]; [done|].
  change (k :: ks) with ([k] ++ ks) at 1. rewrite fmap_app, contrib_app, IH.
  unfold contrib. simpl. by rewrite decide_True by done.
Qed.

Lemma contrib_cell_other i j i' j' ks :
  ¬ (i' = i ∧ j' = j) → contrib i j ((λ k, (i', j', k)) <$> ks) = [].
Proof.
  intros Hne. induction ks as [|k ks IH]; [done|].
  change (k :: ks) with ([k] ++ ks). rewrite fmap_app, contrib_app, IH.
  unfold contrib. simpl. by rewrite decide_False by done.
Qed.

(** ** The inner product *)

Lemma inner_int_is_int A B i j acc ks :
  is_int acc → is_int (inner_int A B i j acc ks).
Proof.
  revert acc. induction ks as [|k ks IH]; intros acc Hacc; [done|].
  apply IH. apply wrap_is_int.
Qed.

Lemma inner_int_wrap A B i j acc ks :
  wrap (inner_int A B i j acc ks) =
  wrap (acc + foldr Z.add 0
                ((λ k, cell (data A) i k * cell (data B) k j) <$> ks)).
Proof.
  revert acc. induction ks as [|k ks IH]; intros acc; simpl.
  - f_equal. lia.
  - change (inner_int A B i j acc (k :: ks))
      with (inner_int A B i j
              (int_add acc (int_mul (cell (data A) i k) (cell (data B) k j))) ks).
    rewrite IH. unfold int_add, int_mul.
    set (p := cell (data A) i k * cell (data B) k j).
    set (rest := foldr Z.add 0 _).
    rewrite wrap_add_l.
    replace (acc + wrap p + rest) with (wrap p + (acc + rest)) by lia.
    rewrite wrap_add_l. f_equal. lia.
Qed.

(** The loop over [k], started from the zero the constructor wrote, leaves
    the inner product wrapped to [int]. *)
Lemma inner_int_inner A B i j :
  inner_int A B i j 0 (seqZ 0 (cols A)) = wrap (inner A B i j).
Proof.
  rewrite <- (wrap_id (inner_int _ _ _ _ _ _)).
  - rewrite inner_int_wrap. done.
  - apply inner_int_is_int. unfold is_int, INT_MIN, INT_MAX. lia.
Qed.

(** ** Sequential multiplication *)

Lemma seq_ops_ok A B : Forall (op_ok A B) (seq_ops A B).
Proof.
  unfold seq_ops. apply Forall_forall. intros [[i j] k] Hin.
  apply list_elem_of_bind in Hin as (i' & Hin & Hi).
  apply list_elem_of_bind in Hin as (j' & Hin & Hj).
  apply list_elem_of_fmap in Hin as (k' & [= -> -> ->] & Hk).
  apply elem_of_seqZ in Hi, Hj, Hk. simpl. lia.
Qed.

Lemma contrib_seq_ops A B i j :
  0 ≤ i < rows A → 0 ≤ j < cols B →
  contrib i j (seq_ops A B) = seqZ 0 (cols A).
Proof.
  intros Hi Hj. unfold seq_ops, contrib. rewrite omap_bind_list.
  rewrite (bind_single _ _ i).
  - rewrite omap_bind_list. rewrite (bind_single _ _ j).
    + apply contrib_cell_same.
    + apply NoDup_seqZ.
    + apply elem_of_seqZ. lia.
    + intros j' _ Hne. apply contrib_cell_other. intros [_ ?]. done.
  - apply NoDup_seqZ.
  - apply elem_of_seqZ. lia.
  - intros i' _ Hne. rewrite omap_bind_list. apply bind_nil.
    intros j' _. apply contrib_cell_other. intros [? _]. done.
Qed.

(** The three nested loops run the statements of [seq_ops]. *)
Lemma loops_seq_ops A B f :
  for_ 0 (rows A) (λ i,
    for_ 0 (cols B) (λ j,
      for_ 0 (cols A) (λ k, accumulate i j k))) f
  = foldM exec_op (seq_ops A B) f.
Proof.
  unfold for_, seq_ops. rewrite !Z.sub_0_r.
  rewrite <- foldM_bind. apply foldM_ext. intros i s.
  rewrite <- foldM_bind. apply foldM_ext. intros j s'.
  by rewrite foldM_fmap.
Qed.

Lemma Construct_ok r c :
  0 ≤ r → 0 ≤ c →
  Construct r c = Ret (zero_matrix r c).
Proof.
  intros Hr Hc. unfold Construct. by rewrite !decide_False by lia.
Qed.

Lemma all_cells_replicate (P : Z → Prop) n m x :
  P x → all_cells P (replicate n (replicate m x)).
Proof. intros Hx. by do 2 apply Forall_replicate. Qed.

(** [multiply] on matrices that satisfy the class invariant: the call
    returns, [*this] and [other] are untouched, and the cells of [result]
    are the inner products. *)
Lemma multiply_frame_spec A B :
  wf A → wf B → cols A = rows B →
  ∃ d, multiply_frame A B = Ret (mkFrame A B (mkMatrix (rows A) (cols B) d)) ∧
    shape (rows A) (cols B) d ∧ all_cells is_int d ∧
    ∀ i j, 0 ≤ i < rows A → 0 ≤ j < cols B →
      cell d i j = inner_int A B i j 0 (seqZ 0 (cols A)).
Proof.
  intros (HrA & HcA & HsA & HiA) (HrB & HcB & HsB & HiB) Hdim.
  destruct (run_ops_spec A B (seq_ops A B) (zero_matrix (rows A) (cols B))
              HsA HsB Hdim) as (d & Hrun & Hs & Hc & Hi).
  { apply shape_replicate; lia. }
  { apply seq_ops_ok. }
  exists d. split_and!; auto.
  - unfold multiply_frame. rewrite decide_False by (intros ?; done).
    rewrite Construct_ok by lia. simpl. rewrite loops_seq_ops. exact Hrun.
  - apply Hi. apply all_cells_replicate. unfold is_int, INT_MIN, INT_MAX. lia.
  - intros i j Hi' Hj'. rewrite Hc by lia. rewrite contrib_seq_ops by done.
    f_equal. apply cell_replicate; lia.
Qed.

Lemma at_cell m i j :
  wf m → 0 ≤ i < rows m → 0 ≤ j < cols m → at_ m i j = Ret (cell (data m) i j).
Proof.
  intros (_ & _ & Hs & _) Hi Hj. unfold at_.
  rewrite decide_False by lia. by apply (mat_get_cell _ _ _ _ _ Hs).
Qed.

(** What [multiply] returns on operands that satisfy the class invariant. *)
Lemma multiply_cells A B :
  wf A → wf B → cols A = rows B →
  ∃ C, multiply A B = Ret C ∧
    rows C = rows A ∧ cols C = cols B ∧ wf C ∧
    ∀ i j, 0 ≤ i < rows A → 0 ≤ j < cols B →
      at_ C i j = Ret (inner_int A B i j 0 (seqZ 0 (cols A))).
Proof.
  intros HA HB Hdim.
  destruct (multiply_frame_spec A B HA HB Hdim) as (d & Hrun & Hs & Hi & Hc).
  assert (wf (mkMatrix (rows A) (cols B) d)) as Hwf.
  { destruct HA as (? & _), HB as (_ & ? & _). unfold wf. simpl. auto. }
  exists (mkMatrix (rows A) (cols B) d). split_and!; auto.
  - unfold multiply. by rewrite Hrun.
  - intros i j Hi' Hj'. rewrite at_cell by done. simpl. f_equal. by apply Hc.
Qed.

(** C2: for matrices [A] (r1 x c1) and [B] (r2 x c2) with [c1 = r2],
    [multiply] returns a new matrix of shape r1 x c2 whose cell [(i, j)] is
    the sum over [k] from 0 to c1 - 1 of [A[i][k] * B[k][j]], computed in
    wrap-around [int] arithmetic: the loop's wrapped running sum, which is
    the integer sum wrapped once. *)
Theorem multiply_correct (A B : Matrix) :
  wf A → wf B → cols A = rows B →
  ∃ C, multiply A B = Ret C ∧
    rows C = rows A ∧ cols C = cols B ∧ wf C ∧
    ∀ i j, 0 ≤ i < rows A → 0 ≤ j < cols B →
      at_ C i j = Ret (inner_int A B i j 0 (seqZ 0 (cols A))) ∧
      inner_int A B i j 0 (seqZ 0 (cols A)) = wrap (inner A B i j).
Proof.
  intros HA HB Hdim.
  destruct (multiply_cells A B HA HB Hdim) as (C & Hrun & Hr & Hc & Hwf & Hcell).
  exists C. split_and!; auto.
  intros i j Hi Hj. split.
  - by apply Hcell.
  - apply inner_int_inner.
Qed.

Lemma wf_mA : wf mA.
Proof. apply (bool_decide_unpack _). by vm_compute. Qed.

Lemma wf_mB : wf mB.
Proof. apply (bool_decide_unpack _). by vm_compute. Qed.

Lemma multiply_correct_witness :
  ∃ C, multiply mA mB = Ret C ∧
    rows C = rows mA ∧ cols C = cols mB ∧ wf C ∧
    ∀ i j, 0 ≤ i < rows mA → 0 ≤ j < cols mB →
      at_ C i j = Ret (inner_int mA mB i j 0 (seqZ 0 (cols mA))) ∧
      inner_int mA mB i j 0 (seqZ 0 (cols mA)) = wrap (inner mA mB i j).
Proof. apply (multiply_correct mA mB wf_mA wf_mB). reflexivity. Defined.

(** ** The partition of the index space *)

Lemma bind_ext_in {X Y} (f g : X → list Y) (l : list X) :
  (∀ x, x ∈ l → f x = g x) → l ≫= f = l ≫= g.
Proof.
  induction l as [|x l IH]; intros H; [done|].
  change ((x :: l) ≫= ?h) with (h x ++ (l ≫= h)).
  rewrite (H x) by left. rewrite IH; [done|]. intros y Hy. apply H. by right.
Qed.

Lemma seqZ_snoc n : 0 ≤ n → seqZ 0 (n + 1) = seqZ 0 n ++ [n].
Proof.
  intros Hn. rewrite seqZ_app by lia. done.
Qed.

(** [m] consecutive ranges of [e] indices make up the first [m * e]
    indices. *)
Lemma equal_ranges e m :
  0 ≤ e → 0 ≤ m → seqZ 0 m ≫= (λ i, seqZ (i * e) e) = seqZ 0 (m * e).
Proof.
  intros He Hm. revert m Hm. apply natlike_ind.
  - done.
  - intros m Hm IH. unfold Z.succ. rewrite seqZ_snoc by done.
    rewrite bind_app, IH. simpl. rewrite app_nil_r.
    replace ((m + 1) * e) with (m * e + e) by lia.
    rewrite (seqZ_app 0) by nia. done.
Qed.

(** Row-major order: running through the indices [0 .. r*c - 1] and
    splitting each into [index / c] and [index % c] is running through the
    rows and, in each row, through the columns. *)
Lemma row_major {Y} (g : Z → Z → list Y) r c :
  0 ≤ r → 0 ≤ c →
  seqZ 0 (r * c) ≫= (λ index, g (index `quot` c) (index `rem` c))
  = i ← seqZ 0 r; j ← seqZ 0 c; g i j.
Proof.
  intros Hr Hc. revert r Hr. apply natlike_ind.
  - done.
  - intros r Hr IH. unfold Z.succ. rewrite seqZ_snoc by done.
    replace ((r + 1) * c) with (r * c + c) by lia.
    rewrite (seqZ_app 0) by nia. rewrite !bind_app, IH. f_equal.
    simpl. rewrite app_nil_r.
    replace (0 + r * c) with (r * c + 0) by lia.
    rewrite <- (fmap_add_seqZ (r * c) 0 c), list_fmap_bind.
    apply bind_ext_in. intros j Hj%elem_of_seqZ. simpl.
    rewrite <- (Z.quot_unique (r * c + j) c r j) by lia.
    rewrite <- (Z.rem_unique (r * c + j) c r j) by lia. done.
Qed.

Lemma quot_bounds T n :
  0 < n →
  (0 ≤ T → 0 ≤ T `quot` n ∧ n * (T `quot` n) ≤ T) ∧
  (T ≤ 0 → T `quot` n ≤ 0 ∧ T ≤ n * (T `quot` n)).
Proof.
  intros Hn. pose proof (Z.quot_rem' T n) as Hqr. split; intros HT.
  - pose proof (Z.rem_bound_pos_pos T n Hn HT). nia.
  - pose proof (Z.rem_bound_pos_neg T n Hn HT). nia.
Qed.

(** No product [i * elements_per_thread] with [0 ≤ i ≤ num_threads] leaves
    the range of [int]. *)
Lemma share_is_int T n i :
  is_int T → 0 < n → 0 ≤ i ≤ n → is_int (i * (T `quot` n)).
Proof.
  unfold is_int, INT_MIN, INT_MAX. intros HT Hn Hi.
  destruct (quot_bounds T n Hn) as [Hpos Hneg].
  set (e := T `quot` n) in *.
  destruct (Z.le_ge_cases 0 T) as [H0|H0].
  - destruct (Hpos H0).
    assert (0 ≤ i * e ≤ n * e) by (split; [nia|apply Z.mul_le_mono_nonneg_r; lia]).
    lia.
  - destruct (Hneg H0).
    assert (n * e ≤ i * e ≤ 0) by (split; [apply Z.mul_le_mono_nonpos_r; lia|nia]).
    lia.
Qed.

Lemma worker_start_exact T n i :
  is_int T → 0 < n → 0 ≤ i ≤ n →
  worker_start (T `quot` n) i = i * (T `quot` n).
Proof.
  intros. unfold worker_start, int_mul. by apply wrap_id, share_is_int.
Qed.

Lemma worker_end_exact T n i :
  is_int T → 1 ≤ n ≤ INT_MAX → 0 ≤ i < n →
  worker_end T n (T `quot` n) i =
    if decide (i = n - 1) then T else (i + 1) * (T `quot` n).
Proof.
  intros HT Hn Hi. unfold worker_end, int_sub, int_add, int_mul.
  rewrite (wrap_id (n - 1)) by (unfold is_int, INT_MIN, INT_MAX in *; lia).
  case_decide; [done|].
  rewrite (wrap_id (i + 1)) by (unfold is_int, INT_MIN, INT_MAX in *; lia).
  apply wrap_id, share_is_int; auto; lia.
Qed.

Lemma worker_indices_exact T n i :
  is_int T → 1 ≤ n ≤ INT_MAX → 0 ≤ i < n →
  worker_indices T n (T `quot` n) i =
    seqZ (i * (T `quot` n))
         ((if decide (i = n - 1) then T else (i + 1) * (T `quot` n))
          - i * (T `quot` n)).
Proof.
  intros HT Hn Hi. unfold worker_indices.
  rewrite worker_start_exact, worker_end_exact by (auto; lia). done.
Qed.

(** The ranges of the workers, one after the other, are the indices
    [0 .. total - 1], when [total] is not negative. *)
Lemma ranges_cover T n :
  0 ≤ T ≤ INT_MAX → 1 ≤ n ≤ INT_MAX →
  seqZ 0 n ≫= worker_indices T n (T `quot` n) = seqZ 0 T.
Proof.
  intros HT Hn.
  assert (is_int T) as HTi by (unfold is_int, INT_MIN; lia).
  destruct (quot_bounds T n) as [[He Hne] _]; [lia..|].
  replace (seqZ 0 n) with (seqZ 0 ((n - 1) + 1)) by (f_equal; lia).
  rewrite seqZ_snoc by lia. rewrite bind_app.
  rewrite (bind_ext_in _ (λ i, seqZ (i * (T `quot` n)) (T `quot` n))).
  - rewrite equal_ranges by lia.
    change ([n - 1] ≫= ?g) with (g (n - 1) ++ []). rewrite app_nil_r.
    rewrite worker_indices_exact by (auto; lia).
    rewrite decide_True by done.
    rewrite <- (seqZ_app 0) by nia. f_equal. lia.
  - intros i Hi%elem_of_seqZ.
    rewrite worker_indices_exact by (auto; lia).
    rewrite decide_False by lia. f_equal. lia.
Qed.

(** Whatever [rows * other.cols] wraps to, a worker only visits indices of
    cells of the result. *)
Lemma worker_indices_bounds r c n i index :
  0 ≤ r → 0 ≤ c → 1 ≤ n ≤ INT_MAX → 0 ≤ i < n →
  index ∈ worker_indices (int_mul r c) n (int_mul r c `quot` n) i →
  0 ≤ index < r * c.
Proof.
  intros Hr Hc Hn Hi. unfold worker_indices. intros Hin%elem_of_seqZ.
  pose proof (wrap_is_int (r * c)) as HT.
  pose proof (wrap_le (r * c)) as Hle.
  fold (int_mul r c) in HT, Hle. set (T := int_mul r c) in *.
  rewrite worker_start_exact, worker_end_exact in Hin by (auto; lia).
  destruct (quot_bounds T n) as [Hpos Hneg]; [lia|].
  pose proof (share_is_int T n i HT) as Hs.
  pose proof (share_is_int T n (i + 1) HT) as Hs1.
  unfold is_int, INT_MIN, INT_MAX in *.
  set (e := T `quot` n) in *.
  destruct (Z.le_gt_cases 0 T) as [H0|H0].
  - destruct (Hpos H0). case_decide; nia.
  - destruct Hneg; [lia|]. case_decide; nia.
Qed.

Lemma bind_assoc_list {X Y W} (f : X → list Y) (g : Y → list W) (l : list X) :
  (l ≫= f) ≫= g = l ≫= (λ x, f x ≫= g).
Proof.
  induction l as [|x l IH]; [done|].
  change ((x :: l) ≫= ?h) with (h x ++ (l ≫= h)).
  by rewrite bind_app, IH.
Qed.

(** ** Thread-partitioned multiplication *)

(** Statements never write to [*this] or to [other]. *)
Lemma run_ops_frame ops f f' :
  foldM exec_op ops f = Ret f' →
  this_ f' = this_ f ∧ other_ f' = other_ f ∧
  rows (result_ f') = rows (result_ f) ∧ cols (result_ f') = cols (result_ f).
Proof.
  apply (foldM_inv (λ s, this_ s = this_ f ∧ other_ s = other_ f ∧
    rows (result_ s) = rows (result_ f) ∧ cols (result_ s) = cols (result_ f))).
  - intros [[i j] k] s s' _ (H1 & H2 & H3 & H4) Hrun.
    apply accumulate_frame in Hrun as (-> & -> & -> & ->). done.
  - done.
Qed.

Lemma cell_task_ops A B index f :
  this_ f = A → other_ f = B → 0 ≤ index → cols B ≠ 0 →
  cell_task index f = foldM exec_op (cell_ops A B index) f.
Proof.
  intros <- <- Hidx Hc. unfold cell_task, int_div, int_rem.
  rewrite !decide_False by (unfold INT_MIN; lia). simpl.
  unfold for_, cell_ops. rewrite Z.sub_0_r. by rewrite foldM_fmap.
Qed.

Lemma worker_as_ops A B n e i f :
  this_ f = A → other_ f = B →
  (∀ index, index ∈ worker_indices (int_mul (rows A) (cols B)) n e i →
     0 ≤ index ∧ cols B ≠ 0) →
  worker n e i f = foldM exec_op (worker_ops A B n e i) f.
Proof.
  intros HA HB Hidx. unfold worker, worker_ops, for_.
  rewrite HA, HB. fold (worker_indices (int_mul (rows A) (cols B)) n e i).
  rewrite <- foldM_bind.
  apply (foldM_ext_inv (λ s, this_ s = A ∧ other_ s = B)); [| |done].
  - intros index s s' Hin [Hs1 Hs2] Hrun. destruct (Hidx index Hin).
    rewrite (cell_task_ops A B) in Hrun by done.
    apply run_ops_frame in Hrun as (-> & -> & _). done.
  - intros index s Hin [Hs1 Hs2]. destruct (Hidx index Hin).
    by apply cell_task_ops.
Qed.

Lemma workers_as_ops A B n e f :
  this_ f = A → other_ f = B →
  (∀ i index, i ∈ seqZ 0 n →
     index ∈ worker_indices (int_mul (rows A) (cols B)) n e i →
     0 ≤ index ∧ cols B ≠ 0) →
  for_ 0 n (worker n e) f = foldM exec_op (seqZ 0 n ≫= worker_ops A B n e) f.
Proof.
  intros HA HB Hidx. unfold for_. rewrite Z.sub_0_r, <- foldM_bind.
  apply (foldM_ext_inv (λ s, this_ s = A ∧ other_ s = B)); [| |done].
  - intros i s s' Hin [Hs1 Hs2] Hrun.
    rewrite (worker_as_ops A B) in Hrun by eauto.
    apply run_ops_frame in Hrun as (-> & -> & _). done.
  - intros i s Hin [Hs1 Hs2]. apply worker_as_ops; eauto.
Qed.

Lemma index_split r c index :
  0 ≤ r → 0 ≤ c → 0 ≤ index < r * c →
  0 < c ∧ 0 ≤ index `quot` c < r ∧ 0 ≤ index `rem` c < c.
Proof.
  intros Hr Hc Hidx. assert (0 < c) as Hc' by nia. split_and!; try done.
  - apply Z.quot_pos; lia.
  - apply Z.quot_lt_upper_bound; lia.
  - apply Z.rem_bound_pos; lia.
  - apply Z.rem_bound_pos; lia.
Qed.

Lemma par_ops_ok A B n :
  0 ≤ rows A → 0 ≤ cols B → 1 ≤ n ≤ INT_MAX →
  Forall (op_ok A B) (par_ops A B n).
Proof.
  intros Hr Hc Hn. unfold par_ops, worker_ops. apply Forall_forall.
  intros [[i j] k] Hin.
  apply list_elem_of_bind in Hin as (w & Hin & Hw%elem_of_seqZ).
  apply list_elem_of_bind in Hin as (index & Hin & Hidx).
  apply worker_indices_bounds in Hidx; [|lia..].
  apply list_elem_of_fmap in Hin as (k' & [= -> -> ->] & Hk%elem_of_seqZ).
  destruct (index_split _ _ index Hr Hc Hidx) as (_ & ? & ?).
  simpl. lia.
Qed.

(** [multiplyParallel] with at least one worker runs the statements of
    [par_ops] on the zero matrix the constructor built. *)
Lemma multiplyParallel_frame_ops A B n :
  0 ≤ rows A → 0 ≤ cols B → cols A = rows B → 1 ≤ n ≤ INT_MAX →
  multiplyParallel_frame A B n =
    foldM exec_op (par_ops A B n) (mkFrame A B (zero_matrix (rows A) (cols B))).
Proof.
  intros Hr Hc Hdim Hn. unfold multiplyParallel_frame.
  rewrite decide_False by (intros ?; done).
  rewrite Construct_ok by lia. simpl. unfold int_div.
  rewrite !decide_False by lia. simpl.
  apply workers_as_ops; [done..|].
  intros i index Hi%elem_of_seqZ Hidx.
  apply worker_indices_bounds in Hidx; [|lia..].
  destruct (index_split _ _ index Hr Hc Hidx). lia.
Qed.

(** When the number of cells of the result fits an [int], the workers
    execute, one after the other, exactly the statements of [multiply], in
    the same order. *)
Lemma par_ops_seq_ops A B n :
  0 ≤ rows A → 0 ≤ cols B → rows A * cols B ≤ INT_MAX → 1 ≤ n ≤ INT_MAX →
  par_ops A B n = seq_ops A B.
Proof.
  intros Hr Hc Hfit Hn. unfold par_ops, worker_ops, seq_ops.
  rewrite <- (bind_assoc_list _ (cell_ops A B)). unfold int_mul.
  rewrite wrap_id by (unfold is_int, INT_MIN; nia).
  rewrite ranges_cover by (auto; nia).
  apply (row_major (λ i j, (λ k, (i, j, k)) <$> seqZ 0 (cols A))); done.
Qed.

(** For at least one worker and a result whose number of cells fits an
    [int], [multiplyParallel] is [multiply]. *)
Lemma multiplyParallel_frame_small A B n :
  0 ≤ rows A → 0 ≤ cols B → rows A * cols B ≤ INT_MAX → 1 ≤ n ≤ INT_MAX →
  multiplyParallel_frame A B n = multiply_frame A B.
Proof.
  intros Hr Hc Hfit Hn. destruct (decide (cols A = rows B)) as [Hdim|Hdim].
  - rewrite multiplyParallel_frame_ops by done.
    rewrite par_ops_seq_ops by done.
    unfold multiply_frame. rewrite decide_False by (intros ?; done).
    rewrite Construct_ok by lia. simpl. by rewrite loops_seq_ops.
  - unfold multiplyParallel_frame, multiply_frame.
    by rewrite !decide_True by done.
Qed.

Lemma wf_zero_matrix r c :
  0 ≤ r ≤ INT_MAX → 0 ≤ c ≤ INT_MAX → wf (zero_matrix r c).
Proof.
  intros Hr Hc. unfold wf, zero_matrix. simpl. split_and!; try lia.
  - apply shape_replicate; lia.
  - apply all_cells_replicate. unfold is_int, INT_MIN, INT_MAX. lia.
Qed.

(** [multiplyParallel] with at least one worker, on matrices that satisfy
    the class invariant: the call returns, [*this] and [other] are
    untouched, and each cell of [result] has received the products of the
    statements that name it. *)
Lemma multiplyParallel_frame_spec A B n :
  wf A → wf B → cols A = rows B → 1 ≤ n ≤ INT_MAX →
  ∃ d, multiplyParallel_frame A B n
         = Ret (mkFrame A B (mkMatrix (rows A) (cols B) d)) ∧
    shape (rows A) (cols B) d ∧ all_cells is_int d ∧
    ∀ i j, 0 ≤ i < rows A → 0 ≤ j < cols B →
      cell d i j = inner_int A B i j 0 (contrib i j (par_ops A B n)).
Proof.
  intros (HrA & HcA & HsA & HiA) (HrB & HcB & HsB & HiB) Hdim Hn.
  destruct (run_ops_spec A B (par_ops A B n) (zero_matrix (rows A) (cols B))
              HsA HsB Hdim) as (d & Hrun & Hs & Hc & Hi).
  { apply shape_replicate; lia. }
  { apply par_ops_ok; lia. }
  exists d. split_and!; auto.
  - rewrite multiplyParallel_frame_ops by lia. exact Hrun.
  - apply Hi. apply all_cells_replicate. unfold is_int, INT_MIN, INT_MAX. lia.
  - intros i j Hi' Hj'. rewrite Hc by lia. f_equal. apply cell_replicate; lia.
Qed.

(** With a negative number of workers no worker is spawned. *)
Lemma multiplyParallel_frame_negative A B n :
  0 ≤ rows A → 0 ≤ cols B → cols A = rows B → n < 0 →
  ¬ (int_mul (rows A) (cols B) = INT_MIN ∧ n = -1) →
  multiplyParallel_frame A B n = Ret (mkFrame A B (zero_matrix (rows A) (cols B))).
Proof.
  intros Hr Hc Hdim Hn Hmin. unfold multiplyParallel_frame.
  rewrite decide_False by (intros ?; done).
  rewrite Construct_ok by lia. simpl. unfold int_div.
  rewrite decide_False by lia. rewrite decide_False by done. simpl.
  unfold for_. by rewrite seqZ_nil by lia.
Qed.

(** With no worker at all, [rows * other.cols / num_threads] divides by
    zero. *)
Lemma multiplyParallel_frame_zero A B :
  0 ≤ rows A → 0 ≤ cols B → cols A = rows B →
  multiplyParallel_frame A B 0 = Undefined.
Proof.
  intros Hr Hc Hdim. unfold multiplyParallel_frame.
  rewrite decide_False by (intros ?; done).
  by rewrite Construct_ok by lia.
Qed.

(** When [rows * other.cols] wraps to an [int] that is not positive, every
    worker has an empty range. *)
Lemma worker_indices_nonpos T n i :
  is_int T → T ≤ 0 → 1 ≤ n ≤ INT_MAX → 0 ≤ i < n →
  worker_indices T n (T `quot` n) i = [].
Proof.
  intros HT H0 Hn Hi. rewrite worker_indices_exact by done.
  apply seqZ_nil. destruct (quot_bounds T n) as [_ Hneg]; [lia|].
  destruct (Hneg H0) as [He Hne]. set (e := T `quot` n) in *.
  case_decide; nia.
Qed.

Lemma par_ops_overflow A B n :
  int_mul (rows A) (cols B) ≤ 0 → 1 ≤ n ≤ INT_MAX → par_ops A B n = [].
Proof.
  intros H0 Hn. unfold par_ops. apply bind_nil. intros i Hi%elem_of_seqZ.
  unfold worker_ops. rewrite worker_indices_nonpos; [done| |done|done|lia].
  apply wrap_is_int.
Qed.

(** So [multiplyParallel] returns the zero matrix the constructor built. *)
Lemma multiplyParallel_overflow A B n :
  0 ≤ rows A → 0 ≤ cols B → cols A = rows B → 1 ≤ n ≤ INT_MAX →
  int_mul (rows A) (cols B) ≤ 0 →
  multiplyParallel A B n = Ret (zero_matrix (rows A) (cols B)).
Proof.
  intros Hr Hc Hdim Hn H0. unfold multiplyParallel.
  rewrite multiplyParallel_frame_ops by done.
  by rewrite par_ops_overflow by done.
Qed.

(** The scenario of the specification: [[1,2],[3,4]] times [[5,6],[7,8]]. *)
Example concrete_scenario :
  multiply mA mB = Ret (mkMatrix 2 2 [[19; 22]; [43; 50]]) ∧
  multiplyParallel mA mB 1 = multiply mA mB ∧
  multiplyParallel mA mB 2 = multiply mA mB ∧
  multiplyParallel mA mB 4 = multiply mA mB.
Proof. by vm_compute. Qed.

(** For at least one worker and a result whose number of cells fits an
    [int], the two multiplications return the same matrix, or fail the same
    way. *)
Lemma multiplyParallel_small A B n :
  0 ≤ rows A → 0 ≤ cols B → rows A * cols B ≤ INT_MAX → 1 ≤ n ≤ INT_MAX →
  multiplyParallel A B n = multiply A B.
Proof.
  intros. unfold multiplyParallel, multiply.
  by rewrite multiplyParallel_frame_small by done.
Qed.

Lemma wf_ones_column : wf ones_column.
Proof.
  unfold wf, ones_column, shape, all_cells, is_int, INT_MIN, INT_MAX.
  cbn [rows cols data]. split_and!; try lia.
  - rewrite length_replicate. lia.
  - by apply Forall_replicate.
  - apply Forall_replicate. apply Forall_singleton. lia.
Qed.

Lemma wf_ones_row : wf ones_row.
Proof.
  unfold wf, ones_row, shape, all_cells, is_int, INT_MIN, INT_MAX.
  cbn [rows cols data]. split_and!; try lia.
  - done.
  - apply Forall_singleton. rewrite length_replicate. lia.
  - apply Forall_singleton. apply Forall_replicate. lia.
Qed.

Lemma cell_ones_column : cell (data ones_column) 0 0 = 1.
Proof.
  unfold cell, ones_column. cbn [data].
  by rewrite lookup_replicate_2 by lia.
Qed.

Lemma cell_ones_row : cell (data ones_row) 0 0 = 1.
Proof.
  unfold cell, ones_row. cbn [data].
  change ([replicate (Z.to_nat 46341) 1] !! Z.to_nat 0)
    with (Some (replicate (Z.to_nat 46341) 1)).
  cbn [mbind option_bind]. by rewrite lookup_replicate_2 by lia.
Qed.

(** C1, at operands whose product has more cells than an [int] counts:
    a column of 46341 ones times a row of 46341 ones, two workers.
    [multiply] returns the matrix of ones; in [multiplyParallel] the number
    of cells [rows * other.cols] wraps to -2147479015, every worker gets an
    empty range, and the matrix returned is still the zero matrix of the
    constructor: the two results differ in the cell (0, 0). *)
Theorem multiplyParallel_differs_on_overflow :
  ∃ S P, multiply ones_column ones_row = Ret S ∧
         multiplyParallel ones_column ones_row 2 = Ret P ∧
         at_ S 0 0 = Ret 1 ∧ at_ P 0 0 = Ret 0.
Proof.
  destruct (multiply_cells ones_column ones_row wf_ones_column wf_ones_row
              eq_refl) as (S & HS & Hr & Hc & HwfS & Hcell).
  exists S, (zero_matrix 46341 46341). split_and!.
  - done.
  - apply (multiplyParallel_overflow ones_column ones_row 2);
      cbn [rows cols ones_column ones_row]; unfold INT_MAX; try lia.
    by vm_compute.
  - rewrite Hcell by (cbn [rows cols ones_column ones_row]; lia).
    assert (inner_int ones_column ones_row 0 0 0 (seqZ 0 (cols ones_column)) = 1)
      as ->; [|done].
    change (seqZ 0 (cols ones_column)) with [0].
    unfold inner_int. cbn [foldl].
    by rewrite cell_ones_column, cell_ones_row.
  - assert (wf (zero_matrix 46341 46341)) as Hwf
      by (apply wf_zero_matrix; unfold INT_MAX; lia).
    rewrite (at_cell _ 0 0 Hwf) by (cbn [rows cols zero_matrix]; lia).
    cbn [data zero_matrix]. by rewrite cell_replicate by lia.
Qed.

(** C3, at a result whose number of cells does not fit an [int]: for
    46341 x 46341 cells and two workers, [rows * other.cols] wraps to
    -2147479015, the two ranges are [0, -1073739507) and
    [-1073739507, -2147479015), both empty, and no index of the output is
    visited. *)
Theorem ranges_empty_on_overflow :
  int_mul 46341 46341 = -2147479015 ∧
  worker_start (int_mul 46341 46341 `quot` 2) 0 = 0 ∧
  worker_end (int_mul 46341 46341) 2 (int_mul 46341 46341 `quot` 2) 0
    = -1073739507 ∧
  worker_start (int_mul 46341 46341 `quot` 2) 1 = -1073739507 ∧
  worker_end (int_mul 46341 46341) 2 (int_mul 46341 46341 `quot` 2) 1
    = -2147479015 ∧
  seqZ 0 2 ≫= worker_indices (int_mul 46341 46341) 2
                 (int_mul 46341 46341 `quot` 2) = [] ∧
  0 ∈ seqZ 0 (46341 * 46341).
Proof.
  do 5 (split; [by vm_compute|]). split; [by vm_compute|].
  apply elem_of_seqZ. lia.
Qed.

(** ** Errors *)

Lemma cell_task_no_throw index f : ¬ throws (cell_task index f).
Proof.
  unfold cell_task, int_div, int_rem.
  repeat case_decide; simpl; try (by intros [e ?]).
  apply foldM_no_throw. intros k s. apply accumulate_no_throw.
Qed.

Lemma worker_no_throw n e i f : ¬ throws (worker n e i f).
Proof.
  unfold worker, for_. apply foldM_no_throw. intros. apply cell_task_no_throw.
Qed.

(** The only exceptions of [multiply]: [invalid_argument] from its guard,
    and [length_error] from the constructor of [result]. *)
Lemma multiply_frame_throw A B e :
  multiply_frame A B = Throw e →
  (cols A ≠ rows B ∧ e = invalid_argument) ∨
  (cols A = rows B ∧ e = length_error).
Proof.
  unfold multiply_frame. case_decide as Hdim.
  - intros [= <-]. by left.
  - intros H. right. split; [lia|].
    unfold Construct in H. repeat case_decide; simpl in H; try congruence.
    exfalso. eapply foldM_no_throw; [|by eexists].
    intros i s. apply foldM_no_throw. intros j s'. apply foldM_no_throw.
    intros k s''. apply accumulate_no_throw.
Qed.

Lemma multiplyParallel_frame_throw A B n e :
  multiplyParallel_frame A B n = Throw e →
  (cols A ≠ rows B ∧ e = invalid_argument) ∨
  (cols A = rows B ∧ e = length_error).
Proof.
  unfold multiplyParallel_frame. case_decide as Hdim.
  - intros [= <-]. by left.
  - intros H. right. split; [lia|].
    unfold Construct, int_div in H.
    repeat case_decide; simpl in H; try congruence.
    exfalso. eapply foldM_no_throw; [|by eexists].
    intros i s. apply worker_no_throw.
Qed.

Lemma bind_Ret_throw {X Y} (o : outcome X) (g : X → Y) e :
  (x ← o; Ret (g x)) = Throw e ↔ o = Throw e.
Proof. destruct o; simpl; split; congruence. Qed.

(** C4: [multiply] and [multiplyParallel] throw [invalid_argument], the
    dimension-mismatch error, if and only if [A.cols ≠ B.rows], whatever
    the number of workers; and then they return no matrix. *)
Theorem dimension_mismatch (A B : Matrix) (n : Z) :
  (multiply A B = Throw invalid_argument ↔ cols A ≠ rows B) ∧
  (multiplyParallel A B n = Throw invalid_argument ↔ cols A ≠ rows B) ∧
  (cols A ≠ rows B →
     (∀ C, multiply A B ≠ Ret C) ∧ (∀ C, multiplyParallel A B n ≠ Ret C)).
Proof.
  unfold multiply, multiplyParallel. split_and!.
  - rewrite bind_Ret_throw. split.
    + intros [[? _]|[_ ?]]%multiply_frame_throw; done.
    + intros H. unfold multiply_frame. by rewrite decide_True.
  - rewrite bind_Ret_throw. split.
    + intros [[? _]|[_ ?]]%multiplyParallel_frame_throw; done.
    + intros H. unfold multiplyParallel_frame. by rewrite decide_True.
  - intros H. unfold multiply_frame, multiplyParallel_frame.
    rewrite !decide_True by done. done.
Qed.

Lemma dimension_mismatch_witness :
  multiply m23 m42 = Throw invalid_argument ∧
  multiplyParallel m23 m42 2 = Throw invalid_argument ∧
  (∀ C, multiply m23 m42 ≠ Ret C) ∧ (∀ C, multiplyParallel m23 m42 2 ≠ Ret C).
Proof.
  destruct (dimension_mismatch m23 m42 2) as (H1 & H2 & H3).
  assert (cols m23 ≠ rows m42) as Hne by (simpl; lia).
  split; [by apply H1|]. split; [by apply H2|]. by apply H3.
Defined.

Lemma mat_get_no_throw d i j : ¬ throws (mat_get d i j).
Proof.
  intros [e H]. unfold mat_get, vec_get in H.
  repeat (first [ case_decide | case_match ]; simpl in H; try done).
Qed.

Lemma mat_set_no_throw d i j x : ¬ throws (mat_set d i j x).
Proof.
  intros [e H]. unfold mat_set, vec_get, vec_set in H.
  repeat (first [ case_decide | case_match ]; simpl in H; try done).
Qed.

Lemma at_set_ok m row col v :
  wf m → 0 ≤ row < rows m → 0 ≤ col < cols m → is_int v →
  ∃ m', at_set m row col v = Ret m' ∧ wf m' ∧
        rows m' = rows m ∧ cols m' = cols m ∧
        ∀ i j, 0 ≤ i → 0 ≤ j →
          cell (data m') i j =
            if decide (i = row ∧ j = col) then v else cell (data m) i j.
Proof.
  intros (Hr & Hc & Hs & Hi) Hrow Hcol Hv.
  destruct (mat_set_spec _ _ (data m) row col v Hs Hrow Hcol)
    as (d & Hset & Hshape & Hcell & Hall).
  exists (with_data m d). split_and!; auto.
  - unfold at_set. rewrite decide_False by lia. by rewrite Hset.
  - unfold wf. simpl. auto.
Qed.

(** C5: reading and writing a cell through [at] throws [out_of_range] if
    and only if [row] is not in [[0, rows)] or [col] is not in [[0, cols)];
    the test is the first thing every call does.  Inside the bounds, on a
    matrix that satisfies the class invariant, the read returns the cell and
    the write returns the matrix with that cell replaced. *)
Theorem at_bounds_check (m : Matrix) (row col v : Z) :
  (at_ m row col = Throw out_of_range ↔
     ¬ (0 ≤ row < rows m) ∨ ¬ (0 ≤ col < cols m)) ∧
  (at_set m row col v = Throw out_of_range ↔
     ¬ (0 ≤ row < rows m) ∨ ¬ (0 ≤ col < cols m)) ∧
  (wf m → 0 ≤ row < rows m → 0 ≤ col < cols m → is_int v →
     at_ m row col = Ret (cell (data m) row col) ∧
     ∃ m', at_set m row col v = Ret m' ∧ at_ m' row col = Ret v).
Proof.
  split_and!.
  - unfold at_. case_decide as Hg; split; try done; try lia.
    intros H. exfalso. eapply mat_get_no_throw. by eexists.
  - unfold at_set. case_decide as Hg; split; try done; try lia.
    intros H. exfalso. apply bind_Ret_throw in H.
    eapply mat_set_no_throw. by eexists.
  - intros Hwf Hrow Hcol Hv. split; [by apply at_cell|].
    destruct (at_set_ok m row col v Hwf Hrow Hcol Hv)
      as (m' & Hset & Hwf' & Hr' & Hc' & Hcell).
    exists m'. split; [done|]. rewrite at_cell by (auto; lia).
    rewrite Hcell by lia. by rewrite decide_True.
Qed.

Lemma at_bounds_check_witness :
  at_ mA 1 0 = Ret 3 ∧
  (∃ m', at_set mA 1 0 9 = Ret m' ∧ at_ m' 1 0 = Ret 9) ∧
  at_ mA 2 0 = Throw out_of_range ∧ at_set mA 0 (-1) 9 = Throw out_of_range.
Proof.
  destruct (at_bounds_check mA 1 0 9) as (_ & _ & Hin).
  destruct (at_bounds_check mA 2 0 9) as (Hget & _ & _).
  destruct (at_bounds_check mA 0 (-1) 9) as (_ & Hset & _).
  split_and!.
  - apply Hin; [apply wf_mA|simpl; lia|simpl; lia|by vm_compute].
  - apply Hin; [apply wf_mA|simpl; lia|simpl; lia|by vm_compute].
  - apply Hget. simpl. lia.
  - apply Hset. simpl. lia.
Defined.

Lemma Construct_negative r c : r < 0 ∨ c < 0 → Construct r c = Throw length_error.
Proof. intros H. unfold Construct. repeat case_decide; try done; lia. Qed.

(** C10: the constructor does not validate its dimensions.  With a zero
    row count or a zero column count (and no negative one) it returns a
    matrix, no exception; every read and every write through [at] on that
    matrix throws [out_of_range], and the matrix holds no cell. *)
Theorem Construct_zero_dimension (r c : Z) :
  0 ≤ r → 0 ≤ c → r = 0 ∨ c = 0 →
  ∃ m, Construct r c = Ret m ∧ rows m = r ∧ cols m = c ∧
       (∀ row col, at_ m row col = Throw out_of_range) ∧
       (∀ row col v, at_set m row col v = Throw out_of_range) ∧
       concat (data m) = [].
Proof.
  intros Hr Hc Hzero. exists (zero_matrix r c).
  split; [by apply Construct_ok|]. split; [done|]. split; [done|].
  split_and!.
  - intros row col. unfold at_. simpl. rewrite decide_True by lia. done.
  - intros row col v. unfold at_set. simpl. rewrite decide_True by lia. done.
  - simpl. destruct Hzero as [-> | ->]; [done|].
    simpl. induction (Z.to_nat r) as [|k IH]; [done|]. simpl. exact IH.
Qed.

Lemma Construct_zero_dimension_witness :
  ∃ m, Construct 0 3 = Ret m ∧ rows m = 0 ∧ cols m = 3 ∧
       (∀ row col, at_ m row col = Throw out_of_range) ∧
       (∀ row col v, at_set m row col v = Throw out_of_range) ∧
       concat (data m) = [].
Proof. apply (Construct_zero_dimension 0 3); [lia | lia | left; reflexivity]. Defined.

(** C6, as the code has it: a worker count that is not positive is not
    rejected.  On [[1,2],[3,4]] and [[5,6],[7,8]], -1 workers return the zero
    matrix and 0 workers divide by zero; neither call throws. *)
Lemma worker_count_not_checked :
  multiplyParallel mA mB (-1) = Ret (zero_matrix 2 2) ∧
  multiplyParallel mA mB 0 = Undefined ∧
  ¬ throws (multiplyParallel mA mB (-1)) ∧
  ¬ throws (multiplyParallel mA mB 0).
Proof.
  split_and!; [by vm_compute|by vm_compute| |]; intros [e H]; by vm_compute in H.
Qed.

(** C6, amended: for a worker count that is not positive, the only
    exception [multiplyParallel] throws is [invalid_argument], when
    [A.cols ≠ B.rows].  With matching dimensions, zero workers is a division
    by zero, and a negative count spawns no worker and returns the zero
    matrix of shape [A.rows] x [B.cols] (the division
    [rows * other.cols / num_threads] overflows only for [INT_MIN / -1]). *)
Theorem nonpositive_worker_count (A B : Matrix) (n : Z) :
  wf A → wf B → n ≤ 0 →
  (∀ e, multiplyParallel A B n = Throw e →
        e = invalid_argument ∧ cols A ≠ rows B) ∧
  (cols A ≠ rows B → multiplyParallel A B n = Throw invalid_argument) ∧
  (cols A = rows B → n = 0 → multiplyParallel A B n = Undefined) ∧
  (cols A = rows B → n < 0 →
     ¬ (int_mul (rows A) (cols B) = INT_MIN ∧ n = -1) →
     multiplyParallel A B n = Ret (zero_matrix (rows A) (cols B))).
Proof.
  intros (HrA & _) (_ & HcB & _) Hn. unfold multiplyParallel. split_and!.
  - intros e He%bind_Ret_throw.
    destruct (multiplyParallel_frame_throw A B n e He) as [[? ->]|[Hdim ->]];
      [done|].
    exfalso. unfold multiplyParallel_frame in He.
    rewrite decide_False in He by (intros ?; done).
    rewrite Construct_ok in He by lia. simpl in He.
    unfold int_div in He. repeat case_decide; simpl in He; try done.
    unfold for_ in He. by rewrite seqZ_nil in He by lia.
  - intros Hdim. unfold multiplyParallel_frame. by rewrite decide_True.
  - intros Hdim ->. by rewrite multiplyParallel_frame_zero by lia.
  - intros Hdim Hneg Hmin.
    by rewrite multiplyParallel_frame_negative by (auto; lia).
Qed.

Lemma nonpositive_worker_count_witness :
  multiplyParallel mA mB (-3) = Ret (zero_matrix 2 2) ∧
  multiplyParallel m23 m42 (-3) = Throw invalid_argument.
Proof.
  assert (wf m23) as H23 by (apply (bool_decide_unpack _); by vm_compute).
  assert (wf m42) as H42 by (apply (bool_decide_unpack _); by vm_compute).
  destruct (nonpositive_worker_count mA mB (-3) wf_mA wf_mB) as (_ & _ & _ & Hneg);
    [lia|].
  destruct (nonpositive_worker_count m23 m42 (-3) H23 H42) as (_ & Hdim & _);
    [lia|].
  split.
  - apply Hneg; [reflexivity | lia | intros [_ ?]; lia].
  - apply Hdim. simpl. lia.
Defined.

(** ** [fill_increment_value] *)

Lemma bind_singleton_fmap {X Y} (f : X → Y) (l : list X) :
  l ≫= (λ x, [f x]) = f <$> l.
Proof.
  induction l as [|x l IH]; [done|].
  change ((x :: l) ≫= ?h) with (h x ++ (l ≫= h)). by rewrite IH.
Qed.

(** The cells are written in row-major order: the cell written at
    position [p] is [(p / c, p % c)]. *)
Lemma fill_ops_row_major r c :
  0 ≤ r → 0 ≤ c →
  fill_ops r c = (λ p, (p `quot` c, p `rem` c)) <$> seqZ 0 (r * c).
Proof.
  intros Hr Hc. unfold fill_ops. rewrite <- bind_singleton_fmap.
  rewrite (row_major (λ i j, [(i, j)])) by done.
  apply bind_ext_in. intros i _. by rewrite bind_singleton_fmap.
Qed.

Lemma fill_ops_lookup r c i j :
  0 ≤ i < r → 0 ≤ j < c →
  fill_ops r c !! Z.to_nat (i * c + j) = Some (i, j).
Proof.
  intros Hi Hj. rewrite fill_ops_row_major by lia.
  rewrite list_lookup_fmap, lookup_seqZ_lt by nia.
  rewrite Z2Nat.id, Z.add_0_l by nia. cbn [fmap option_fmap option_map].
  rewrite <- (Z.quot_unique (i * c + j) c i j) by nia.
  rewrite <- (Z.rem_unique (i * c + j) c i j) by nia. done.
Qed.

Lemma fill_ops_NoDup r c : NoDup (fill_ops r c).
Proof.
  unfold fill_ops. apply NoDup_bind.
  - intros i i' [a b] _ _ (? & [= -> ->] & _)%list_elem_of_fmap
      (? & [= -> _] & _)%list_elem_of_fmap. done.
  - intros i _. apply NoDup_fmap_2; [|apply NoDup_seqZ].
    by intros j j' [= ->].
  - apply NoDup_seqZ.
Qed.

Lemma fill_ops_ok r c i j : (i, j) ∈ fill_ops r c → 0 ≤ i < r ∧ 0 ≤ j < c.
Proof.
  unfold fill_ops.
  intros (i' & (j' & [= -> ->] & Hj%elem_of_seqZ)%list_elem_of_fmap
           & Hi%elem_of_seqZ)%list_elem_of_bind.
  lia.
Qed.

Lemma all_cells_of_cells (P : Z → Prop) n m d :
  shape n m d →
  (∀ i j, 0 ≤ i < n → 0 ≤ j < m → P (cell d i j)) → all_cells P d.
Proof.
  intros [Hn Hrows] Hcell. apply Forall_lookup_2. intros i r Hr.
  apply Forall_lookup_2. intros j x Hx.
  pose proof (Forall_lookup_1 _ _ _ _ Hrows Hr) as Hlen. simpl in Hlen.
  pose proof (lookup_lt_Some _ _ _ Hr). pose proof (lookup_lt_Some _ _ _ Hx).
  specialize (Hcell (Z.of_nat i) (Z.of_nat j)). unfold cell in Hcell.
  rewrite !Nat2Z.id, Hr in Hcell. simpl in Hcell. rewrite Hx in Hcell.
  apply Hcell; lia.
Qed.

Section FillProperties.
Context {G : Type} (dis : G → Z * G).

Lemma loops_fill_ops r c s :
  for_ 0 r (λ i, for_ 0 c (λ j, fill_cell dis (i, j))) s
  = foldM (fill_cell dis) (fill_ops r c) s.
Proof.
  unfold for_, fill_ops. rewrite !Z.sub_0_r, <- foldM_bind.
  apply foldM_ext. intros i s'. by rewrite foldM_fmap.
Qed.

Lemma fill_cell_eq i j d g :
  fill_cell dis (i, j) (d, g)
  = d' ← mat_set d i j (fst (dis g)); Ret (d', snd (dis g)).
Proof. unfold fill_cell. simpl. by destruct (dis g). Qed.

(** A run of writes inside an [n] x [m] storage returns; the cells it does
    not name are as before, and a cell named once holds the value drawn at
    that position of the run. *)
Lemma fill_run_spec n m l : ∀ d g,
  shape n m d →
  Forall (λ ij : Z * Z, 0 ≤ ij.1 < n ∧ 0 ≤ ij.2 < m) l →
  ∃ d', foldM (fill_cell dis) l (d, g) = Ret (d', draw_state dis g (length l)) ∧
    shape n m d' ∧
    (∀ i j, 0 ≤ i → 0 ≤ j → (i, j) ∉ l → cell d' i j = cell d i j) ∧
    (NoDup l → ∀ p i j, l !! p = Some (i, j) → cell d' i j = drawn dis g p).
Proof.
  induction l as [|[i0 j0] l IH]; intros d g Hd Hok.
  - exists d. split_and!; try done.
  - apply Forall_cons in Hok as [[Hi0 Hj0] Hok]. simpl in Hi0, Hj0.
    destruct (mat_set_spec n m d i0 j0 (fst (dis g)) Hd Hi0 Hj0)
      as (d1 & Hset & Hd1 & Hcell1 & _).
    destruct (IH d1 (snd (dis g)) Hd1 Hok) as (d' & Hrun & Hd' & Hkeep & Hnew).
    exists d'. split_and!.
    + cbn [foldM length draw_state]. rewrite fill_cell_eq, Hset. exact Hrun.
    + done.
    + intros i j Hi Hj Hnot. apply not_elem_of_cons in Hnot as [Hne Hnot].
      rewrite Hkeep, Hcell1 by done.
      rewrite decide_False; [done|]. intros [-> ->]. done.
    + intros Hnd p i j Hp. apply NoDup_cons in Hnd as [Hfresh Hnd].
      destruct p as [|p]; simpl in Hp.
      * injection Hp as -> ->. rewrite Hkeep, Hcell1 by (auto; lia).
        by rewrite decide_True.
      * by apply (Hnew Hnd p).
Qed.

(** [fill_increment_value] on a matrix that satisfies the shape part of the
    class invariant: the call returns a matrix of the same dimensions, and
    the cell [(i, j)] holds the value drawn at position [i * cols + j],
    whatever it held before. *)
Lemma fill_increment_value_spec m g :
  0 ≤ rows m → 0 ≤ cols m → shape (rows m) (cols m) (data m) →
  ∃ d, fill_increment_value dis m g = Ret (with_data m d) ∧
       shape (rows m) (cols m) d ∧
       ∀ i j, 0 ≤ i < rows m → 0 ≤ j < cols m →
         cell d i j = drawn dis g (Z.to_nat (i * cols m + j)).
Proof.
  intros Hr Hc Hs.
  destruct (fill_run_spec (rows m) (cols m) (fill_ops (rows m) (cols m))
              (data m) g Hs) as (d & Hrun & Hd & _ & Hnew).
  { apply Forall_forall. intros [i j] Hin. by apply fill_ops_ok. }
  exists d. split_and!; [|done|].
  - unfold fill_increment_value. rewrite loops_fill_ops, Hrun. done.
  - intros i j Hi Hj. apply (Hnew (fill_ops_NoDup _ _)).
    by apply fill_ops_lookup.
Qed.

End FillProperties.

Lemma wf_Construct r c m :
  is_int r → is_int c → Construct r c = Ret m →
  m = zero_matrix r c ∧ 0 ≤ r ≤ INT_MAX ∧ 0 ≤ c ≤ INT_MAX.
Proof.
  unfold Construct, is_int. intros Hr Hc H.
  repeat case_decide; try done. injection H as <-. split; [done|lia].
Qed.

Lemma wf_result A B d :
  wf A → wf B → shape (rows A) (cols B) d → all_cells is_int d →
  wf (mkMatrix (rows A) (cols B) d).
Proof. intros (? & _) (_ & ? & _) Hs Hi. unfold wf. simpl. auto. Qed.

Lemma wf_multiply A B C : wf A → wf B → multiply A B = Ret C → wf C.
Proof.
  intros HA HB H. unfold multiply in H.
  destruct (decide (cols A = rows B)) as [Hdim|Hdim].
  - destruct (multiply_frame_spec A B HA HB Hdim) as (d & Hrun & Hs & Hi & _).
    rewrite Hrun in H. injection H as <-. by apply wf_result.
  - unfold multiply_frame in H. by rewrite decide_True in H.
Qed.

Lemma wf_multiplyParallel A B n C :
  wf A → wf B → is_int n → multiplyParallel A B n = Ret C → wf C.
Proof.
  intros HA HB Hn H. unfold multiplyParallel in H.
  destruct (decide (cols A = rows B)) as [Hdim|Hdim];
    [|unfold multiplyParallel_frame in H; by rewrite decide_True in H].
  destruct (decide (1 ≤ n)) as [Hpos|Hneg].
  - destruct (multiplyParallel_frame_spec A B n HA HB Hdim)
      as (d & Hrun & Hs & Hi & _); [unfold is_int in Hn; lia|].
    rewrite Hrun in H. injection H as <-. by apply wf_result.
  - destruct HA as (HrA & _), HB as (_ & HcB & _).
    unfold multiplyParallel_frame in H.
    rewrite decide_False in H by (intros ?; done).
    rewrite Construct_ok in H by lia. simpl in H. unfold int_div in H.
    repeat case_decide; simpl in H; try done.
    unfold for_ in H. rewrite seqZ_nil in H by lia. injection H as <-.
    by apply wf_zero_matrix.
Qed.

Section Invariant.
Context {G : Type} (dis : G → Z * G).
(** The contract of [std::uniform_int_distribution<>(1, 10)]. *)
Hypothesis dis_range : ∀ g, 1 ≤ fst (dis g) ≤ 10.

Lemma drawn_range g k : 1 ≤ drawn dis g k ≤ 10.
Proof. apply dis_range. Qed.

Lemma fill_increment_value_wf m g :
  wf m →
  ∃ d, fill_increment_value dis m g = Ret (with_data m d) ∧
       wf (with_data m d) ∧
       ∀ i j, 0 ≤ i < rows m → 0 ≤ j < cols m →
         cell d i j = drawn dis g (Z.to_nat (i * cols m + j)).
Proof.
  intros (Hr & Hc & Hs & _).
  destruct (fill_increment_value_spec dis m g) as (d & Hrun & Hd & Hcell);
    [lia|lia|done|].
  exists d. split_and!; try done. unfold wf. simpl.
  split_and!; try done; try lia.
  apply (all_cells_of_cells _ _ _ _ Hd). intros i j Hi Hj.
  rewrite Hcell by done. pose proof (drawn_range g (Z.to_nat (i * cols m + j))).
  unfold is_int, INT_MIN, INT_MAX. lia.
Qed.

(** C9: after [fill_increment_value] returns, and it does return on every
    matrix that satisfies the class invariant, every cell holds an integer
    between 1 and 10, whatever values the generator produces; every cell is
    overwritten: the cell [(i, j)] holds the value drawn at position
    [i * cols + j], whatever it held before. *)
Theorem fill_increment_value_range (m : Matrix) (g : G) :
  wf m →
  ∃ m', fill_increment_value dis m g = Ret m' ∧
    rows m' = rows m ∧ cols m' = cols m ∧ wf m' ∧
    all_cells (λ v, 1 ≤ v ≤ 10) (data m') ∧
    ∀ i j, 0 ≤ i < rows m → 0 ≤ j < cols m →
      at_ m' i j = Ret (drawn dis g (Z.to_nat (i * cols m + j))) ∧
      1 ≤ drawn dis g (Z.to_nat (i * cols m + j)) ≤ 10.
Proof.
  intros Hm. destruct (fill_increment_value_wf m g Hm) as (d & Hrun & Hwf & Hcell).
  exists (with_data m d). split_and!; try done.
  - destruct Hwf as (_ & _ & Hs & _). simpl in Hs.
    apply (all_cells_of_cells _ _ _ _ Hs). intros i j Hi Hj.
    rewrite Hcell by done. apply drawn_range.
  - intros i j Hi Hj. split; [|apply drawn_range].
    rewrite at_cell by done. simpl. f_equal. by apply Hcell.
Qed.

(** C7: every matrix built by the constructor and passed through
    [fill_increment_value], writes through [at], [multiply] and
    [multiplyParallel] satisfies the class invariant: [data] has [rows] rows
    of [cols] cells, each an [int].  And the constructor, given dimensions
    that are counts, returns a matrix of exactly these dimensions with a
    zero in every cell. *)
Theorem class_invariant :
  (∀ m, reachable dis m → wf m) ∧
  (∀ r c, 0 ≤ r ≤ INT_MAX → 0 ≤ c ≤ INT_MAX →
     ∃ m, Construct r c = Ret m ∧ reachable dis m ∧
          rows m = r ∧ cols m = c ∧ shape r c (data m) ∧
          all_cells (λ v, v = 0) (data m) ∧
          ∀ i j, 0 ≤ i < r → 0 ≤ j < c → at_ m i j = Ret 0).
Proof.
  split.
  - induction 1 as [r c m Hr Hc Hm | m g m' _ IH Hfill
                    | m row col v m' _ IH Hv Hset
                    | A B C _ IHA _ IHB Hmul | A B n C _ IHA _ IHB Hn Hmul].
    + destruct (wf_Construct r c m Hr Hc Hm) as (-> & ? & ?).
      by apply wf_zero_matrix.
    + destruct (fill_increment_value_wf m g IH) as (d & Hrun & Hwf & _).
      rewrite Hrun in Hfill. by injection Hfill as <-.
    + unfold at_set in Hset. case_decide as Hg; [done|].
      destruct (at_set_ok m row col v IH) as (m'' & Hset' & Hwf & _);
        [lia|lia|done|].
      unfold at_set in Hset'. rewrite decide_False in Hset' by done.
      rewrite Hset' in Hset. by injection Hset as <-.
    + by apply (wf_multiply A B).
    + by apply (wf_multiplyParallel A B n).
  - intros r c Hr Hc. exists (zero_matrix r c).
    assert (Construct r c = Ret (zero_matrix r c)) as Hcons
      by (apply Construct_ok; lia).
    split_and!; try done.
    + apply (reach_Construct dis r c); [unfold is_int, INT_MIN; lia..|done].
    + simpl. apply shape_replicate; lia.
    + simpl. by apply all_cells_replicate.
    + intros i j Hi Hj. rewrite at_cell; [|by apply wf_zero_matrix|done|done].
      simpl. by rewrite cell_replicate.
Qed.

End Invariant.

Lemma counter_dis_range g : 1 ≤ fst (counter_dis g) ≤ 10.
Proof.
  unfold counter_dis. simpl. pose proof (Z.mod_pos_bound g 10). lia.
Qed.

Lemma fill_increment_value_range_witness :
  ∃ m', fill_increment_value counter_dis mA 7 = Ret m' ∧
    rows m' = rows mA ∧ cols m' = cols mA ∧ wf m' ∧
    all_cells (λ v, 1 ≤ v ≤ 10) (data m') ∧
    ∀ i j, 0 ≤ i < rows mA → 0 ≤ j < cols mA →
      at_ m' i j = Ret (drawn counter_dis 7 (Z.to_nat (i * cols mA + j))) ∧
      1 ≤ drawn counter_dis 7 (Z.to_nat (i * cols mA + j)) ≤ 10.
Proof.
  apply (fill_increment_value_range counter_dis counter_dis_range mA 7 wf_mA).
Defined.

Lemma class_invariant_witness :
  ∃ m, Construct 2 3 = Ret m ∧ wf m ∧ rows m = 2 ∧ cols m = 3 ∧
       all_cells (λ v, v = 0) (data m).
Proof.
  destruct (class_invariant counter_dis counter_dis_range) as [Hinv Hcons].
  destruct (Hcons 2 3) as (m & Hm & Hreach & Hr & Hc & _ & Hzero & _);
    [unfold INT_MAX; lia..|].
  exists m. split; [exact Hm|]. split; [by apply Hinv|]. by split_and!.
Defined.

(** ** Schedules *)

Lemma concat_fmap_bind {X Y} (f : X → list Y) (l : list X) :
  concat (f <$> l) = l ≫= f.
Proof.
  induction l as [|x l IH]; [done|].
  change (concat (f <$> x :: l)) with (f x ++ concat (f <$> l)).
  change ((x :: l) ≫= f) with (f x ++ (l ≫= f)). by rewrite IH.
Qed.

(** A schedule executes each statement of each worker once. *)
Lemma interleaving_Permutation {X} (ts : list (list X)) l :
  interleaving ts l → l ≡ₚ concat ts.
Proof.
  induction 1 as [ts Hnil | ts i x t l Hi _ IH].
  - induction Hnil as [|t ts -> _ IH]; [done|]. simpl. exact IH.
  - rewrite IH. rewrite <- (take_drop_middle ts i (x :: t) Hi) at 2.
    rewrite insert_take_drop by (by eapply lookup_lt_Some).
    rewrite !concat_app, !concat_cons. apply Permutation_middle.
Qed.

Lemma sum_Permutation (f : Z → Z) ks ks' :
  ks ≡ₚ ks' → foldr Z.add 0 (f <$> ks) = foldr Z.add 0 (f <$> ks').
Proof. induction 1; rewrite ?fmap_cons; cbn [foldr]; lia. Qed.

(** Wrap-around sums do not depend on the order of the terms. *)
Lemma inner_int_Permutation A B i j acc ks ks' :
  is_int acc → ks ≡ₚ ks' →
  inner_int A B i j acc ks = inner_int A B i j acc ks'.
Proof.
  intros Hacc Hperm.
  rewrite <- (wrap_id (inner_int A B i j acc ks))
    by (by apply inner_int_is_int).
  rewrite <- (wrap_id (inner_int A B i j acc ks'))
    by (by apply inner_int_is_int).
  rewrite !inner_int_wrap. by rewrite (sum_Permutation _ ks ks').
Qed.

Lemma cell_is_int d i j : all_cells is_int d → is_int (cell d i j).
Proof.
  intros Hall. unfold cell.
  destruct (d !! Z.to_nat i) as [r|] eqn:Hr; simpl;
    [|unfold is_int, INT_MIN, INT_MAX; lia].
  destruct (r !! Z.to_nat j) as [x|] eqn:Hx; simpl;
    [|unfold is_int, INT_MIN, INT_MAX; lia].
  pose proof (Forall_lookup_1 _ _ _ _ Hall Hr) as Hrow.
  by apply (Forall_lookup_1 _ _ _ _ Hrow Hx).
Qed.

(** Two runs of the same statements in different orders end in the same
    frame. *)
Lemma run_ops_Permutation A B R ops ops' :
  shape (rows A) (cols A) (data A) → shape (rows B) (cols B) (data B) →
  cols A = rows B →
  shape (rows A) (cols B) (data R) → all_cells is_int (data R) →
  Forall (op_ok A B) ops → ops ≡ₚ ops' →
  foldM exec_op ops' (mkFrame A B R) = foldM exec_op ops (mkFrame A B R).
Proof.
  intros HA HB Hdim HR HRi Hok Hperm.
  assert (Forall (op_ok A B) ops') as Hok' by (by rewrite <- Hperm).
  destruct (run_ops_spec A B ops R HA HB Hdim HR Hok) as (d & -> & Hs & Hc & _).
  destruct (run_ops_spec A B ops' R HA HB Hdim HR Hok')
    as (d' & -> & Hs' & Hc' & _).
  do 3 f_equal. apply (shape_ext _ _ _ _ Hs' Hs). intros i j Hi Hj.
  rewrite Hc, Hc' by lia. apply inner_int_Permutation.
  - by apply cell_is_int.
  - unfold contrib. by rewrite Hperm.
Qed.

(** Whatever the schedule of the workers, the frame at the [join] is the
    frame reached when the workers run one after the other. *)
Lemma schedule_frame A B n sched :
  wf A → wf B → cols A = rows B → 1 ≤ n ≤ INT_MAX →
  interleaving (workers_ops A B n) sched →
  foldM exec_op sched (mkFrame A B (zero_matrix (rows A) (cols B)))
  = multiplyParallel_frame A B n.
Proof.
  intros (HrA & HcA & HsA & HiA) (HrB & HcB & HsB & HiB) Hdim Hn Hsched.
  apply interleaving_Permutation in Hsched.
  unfold workers_ops in Hsched. rewrite concat_fmap_bind in Hsched.
  fold (par_ops A B n) in Hsched.
  rewrite multiplyParallel_frame_ops by lia.
  apply run_ops_Permutation; try done.
  - apply shape_replicate; lia.
  - apply all_cells_replicate. unfold is_int, INT_MIN, INT_MAX. lia.
  - apply par_ops_ok; lia.
Qed.

(** So [multiplyParallel] returns the same matrix under every schedule. *)
Theorem multiplyParallel_any_schedule A B n sched :
  wf A → wf B → cols A = rows B → 1 ≤ n ≤ INT_MAX →
  interleaving (workers_ops A B n) sched →
  multiplyParallel_sched A B n sched = multiplyParallel A B n.
Proof.
  intros HA HB Hdim Hn Hsched.
  pose proof (schedule_frame A B n sched HA HB Hdim Hn Hsched) as Hrun.
  destruct HA as (HrA & _), HB as (_ & HcB & _).
  unfold multiplyParallel, multiplyParallel_sched.
  rewrite decide_False by (intros ?; done).
  rewrite Construct_ok by lia. unfold int_div.
  rewrite !decide_False by lia. simpl. by rewrite Hrun.
Qed.

(** ** Disjoint workers *)

(** No index belongs to the ranges of two workers. *)
Lemma worker_ranges_disjoint T n i i' index :
  is_int T → 1 ≤ n ≤ INT_MAX → 0 ≤ i < n → 0 ≤ i' < n → i ≠ i' →
  index ∈ worker_indices T n (T `quot` n) i →
  index ∈ worker_indices T n (T `quot` n) i' → False.
Proof.
  intros HT Hn Hi Hi' Hne.
  rewrite !worker_indices_exact by done.
  intros H1%elem_of_seqZ H2%elem_of_seqZ.
  destruct (quot_bounds T n) as [Hpos Hneg]; [lia|].
  set (e := T `quot` n) in *.
  destruct (Z.le_gt_cases 0 T) as [H0|H0].
  - destruct (Hpos H0) as [He Hne'].
    destruct (Z.lt_total i i') as [Hlt|[?|Hlt]]; [|done|].
    + rewrite (decide_False (P := i = n - 1)) in H1 by lia.
      assert ((i + 1) * e ≤ i' * e) by (apply Z.mul_le_mono_nonneg_r; lia).
      lia.
    + rewrite (decide_False (P := i' = n - 1)) in H2 by lia.
      assert ((i' + 1) * e ≤ i * e) by (apply Z.mul_le_mono_nonneg_r; lia).
      lia.
  - destruct Hneg as [He Hne']; [lia|].
    assert (n * e ≤ i * e)
      by (apply Z.mul_le_mono_nonpos_r; lia).
    assert ((i + 1) * e ≤ i * e) by nia.
    case_decide; lia.
Qed.

(** No cell of [result] is named by statements of two workers: each worker
    writes to cells of its own. *)
Lemma workers_disjoint A B n i i' (o o' : op) :
  1 ≤ n ≤ INT_MAX → 0 ≤ i < n → 0 ≤ i' < n → i ≠ i' →
  o ∈ worker_ops A B n (int_mul (rows A) (cols B) `quot` n) i →
  o' ∈ worker_ops A B n (int_mul (rows A) (cols B) `quot` n) i' →
  (o.1.1, o.1.2) ≠ (o'.1.1, o'.1.2).
Proof.
  intros Hn Hi Hi' Hne. unfold worker_ops.
  intros (index & Ho & Hidx)%list_elem_of_bind
         (index' & Ho' & Hidx')%list_elem_of_bind.
  apply list_elem_of_fmap in Ho as (k & -> & _).
  apply list_elem_of_fmap in Ho' as (k' & -> & _). simpl.
  intros [= Hq Hr]. assert (index = index') as <-.
  { rewrite (Z.quot_rem' index (cols B)), (Z.quot_rem' index' (cols B)).
    by rewrite Hq, Hr. }
  eapply (worker_ranges_disjoint _ n i i' index); eauto using wrap_is_int.
Qed.

(** The sizes of the ranges: [total / num_threads] indices for every worker
    but the last, which takes what is left. *)
Lemma worker_indices_length T n i :
  0 ≤ T ≤ INT_MAX → 1 ≤ n ≤ INT_MAX → 0 ≤ i < n →
  Z.of_nat (length (worker_indices T n (T `quot` n) i)) =
    if decide (i = n - 1) then T - (n - 1) * (T `quot` n) else T `quot` n.
Proof.
  intros HT Hn Hi.
  rewrite worker_indices_exact by (unfold is_int, INT_MIN; lia).
  rewrite length_seqZ. destruct (quot_bounds T n) as [[He Hne] _]; [lia..|].
  case_decide; [subst i; nia|lia].
Qed.

(** When the number of cells fits an [int], each index of the output
    belongs to the range of exactly one worker. *)
Lemma worker_of_index T n index :
  0 ≤ T ≤ INT_MAX → 1 ≤ n ≤ INT_MAX → 0 ≤ index < T →
  ∃ i, 0 ≤ i < n ∧ index ∈ worker_indices T n (T `quot` n) i ∧
       ∀ i', 0 ≤ i' < n →
             index ∈ worker_indices T n (T `quot` n) i' → i' = i.
Proof.
  intros HT Hn Hidx.
  assert (is_int T) as HTi by (unfold is_int, INT_MIN; lia).
  assert (index ∈ seqZ 0 n ≫= worker_indices T n (T `quot` n)) as Hin.
  { rewrite ranges_cover by done. apply elem_of_seqZ. lia. }
  apply list_elem_of_bind in Hin as (i & Hin & Hi%elem_of_seqZ).
  exists i. split; [lia|]. split; [done|].
  intros i' Hi' Hin'. destruct (decide (i' = i)) as [|Hne]; [done|].
  destruct (worker_ranges_disjoint T n i' i index); auto; lia.
Qed.

Lemma alternating_interleaving : interleaving (workers_ops mA mB 2) alternating.
Proof.
  change (workers_ops mA mB 2)
    with [[(0, 0, 0); (0, 0, 1); (0, 1, 0); (0, 1, 1)];
          [(1, 0, 0); (1, 0, 1); (1, 1, 0); (1, 1, 1)]].
  unfold alternating.
  repeat first [ eapply (interleaving_step _ 0%nat); [reflexivity|]; simpl
               | eapply (interleaving_step _ 1%nat); [reflexivity|]; simpl ].
  apply interleaving_done. by repeat constructor.
Qed.

Example multiplyParallel_alternating :
  multiplyParallel_sched mA mB 2 alternating = multiply mA mB.
Proof.
  rewrite (multiplyParallel_any_schedule mA mB 2 alternating wf_mA wf_mB);
    [reflexivity|reflexivity|unfold INT_MAX; lia|apply alternating_interleaving].
Qed.

(** ** The operands *)

(** C8: on operands that satisfy the class invariant, with matching inner
    dimensions, [multiply] and [multiplyParallel] (with at least one worker,
    under every schedule of the workers) return, and when they do [*this]
    and [other] are the matrices they were before the call, contents and
    dimensions; the matrix returned is the local [result]. *)
Theorem multiply_inputs_unchanged (A B : Matrix) (n : Z) :
  wf A → wf B → cols A = rows B → 1 ≤ n ≤ INT_MAX →
  (∃ C, multiply_frame A B = Ret (mkFrame A B C) ∧ multiply A B = Ret C) ∧
  (∃ C, multiplyParallel_frame A B n = Ret (mkFrame A B C) ∧
        multiplyParallel A B n = Ret C ∧
        ∀ sched, interleaving (workers_ops A B n) sched →
          foldM exec_op sched (mkFrame A B (zero_matrix (rows A) (cols B)))
            = Ret (mkFrame A B C) ∧
          multiplyParallel_sched A B n sched = Ret C).
Proof.
  intros HA HB Hdim Hn. split.
  - destruct (multiply_frame_spec A B HA HB Hdim) as (d & Hrun & _).
    eexists. split; [exact Hrun|]. unfold multiply. by rewrite Hrun.
  - destruct (multiplyParallel_frame_spec A B n HA HB Hdim Hn) as (d & Hrun & _).
    assert (multiplyParallel A B n = Ret (mkMatrix (rows A) (cols B) d)) as Hret
      by (unfold multiplyParallel; by rewrite Hrun).
    eexists. split; [exact Hrun|]. split; [exact Hret|].
    intros sched Hsched. split.
    + by rewrite (schedule_frame A B n sched).
    + by rewrite (multiplyParallel_any_schedule A B n sched).
Qed.

Lemma multiply_inputs_unchanged_witness :
  (∃ C, multiply_frame mA mB = Ret (mkFrame mA mB C) ∧ multiply mA mB = Ret C) ∧
  (∃ C, multiplyParallel_frame mA mB 2 = Ret (mkFrame mA mB C) ∧
        multiplyParallel mA mB 2 = Ret C ∧
        ∀ sched, interleaving (workers_ops mA mB 2) sched →
          foldM exec_op sched (mkFrame mA mB (zero_matrix (rows mA) (cols mB)))
            = Ret (mkFrame mA mB C) ∧
          multiplyParallel_sched mA mB 2 sched = Ret C).
Proof.
  apply (multiply_inputs_unchanged mA mB 2 wf_mA wf_mB); [reflexivity|].
  unfold INT_MAX. lia.
Defined.

(** * Further properties of the class and of the driver *)

(** ** The two multiplications, when the result fits *)

(** X1: when the number of cells of the result fits an [int] and there is
    at least one worker, [multiplyParallel] ends the way [multiply] does,
    with the same matrix or the same exception, and so it does under every
    schedule of its workers. *)
Theorem multiplyParallel_is_multiply (A B : Matrix) (n : Z) (sched : list op) :
  wf A → wf B → rows A * cols B ≤ INT_MAX → 1 ≤ n ≤ INT_MAX →
  multiplyParallel A B n = multiply A B ∧
  (interleaving (workers_ops A B n) sched →
   multiplyParallel_sched A B n sched = multiply A B).
Proof.
  intros HA HB Hfit Hn.
  pose proof HA as (HrA & _). pose proof HB as (_ & HcB & _).
  assert (multiplyParallel_frame A B n = multiply_frame A B) as Hsame
    by (apply multiplyParallel_frame_small; lia).
  split.
  - unfold multiplyParallel, multiply. by rewrite Hsame.
  - intros Hsched. unfold multiplyParallel_sched, multiply.
    destruct (decide (cols A = rows B)) as [Hdim|Hdim].
    + rewrite decide_False by (intros ?; done).
      rewrite Construct_ok by lia. unfold int_div.
      rewrite !decide_False by lia. simpl.
      rewrite (schedule_frame A B n sched) by done. by rewrite Hsame.
    + rewrite decide_True by done. unfold multiply_frame.
      by rewrite decide_True by done.
Qed.

Lemma multiplyParallel_is_multiply_witness :
  multiplyParallel mA mB 2 = multiply mA mB ∧
  multiplyParallel_sched mA mB 2 alternating = multiply mA mB.
Proof.
  destruct (multiplyParallel_is_multiply mA mB 2 alternating wf_mA wf_mB)
    as [Hseq Hsched]; [by vm_compute | unfold INT_MAX; lia |].
  split; [exact Hseq | apply Hsched, alternating_interleaving].
Defined.

(** X2: when [total] fits an [int] and there is at least one worker, the
    ranges of the workers start at 0, each ends where the next starts, the
    last ends at [total]; every worker but the last has
    [total / num_threads] indices and the last has the rest; and every index
    below [total] is in the range of one worker and no other. *)
Theorem partition_of_indices (T n : Z) :
  0 ≤ T ≤ INT_MAX → 1 ≤ n ≤ INT_MAX →
  worker_start (T `quot` n) 0 = 0 ∧
  worker_end T n (T `quot` n) (n - 1) = T ∧
  (∀ i, 0 ≤ i < n - 1 →
     worker_end T n (T `quot` n) i = worker_start (T `quot` n) (i + 1) ∧
     Z.of_nat (length (worker_indices T n (T `quot` n) i)) = T `quot` n) ∧
  Z.of_nat (length (worker_indices T n (T `quot` n) (n - 1)))
    = T - (n - 1) * (T `quot` n) ∧
  (∀ index, 0 ≤ index < T →
     ∃ i, 0 ≤ i < n ∧ index ∈ worker_indices T n (T `quot` n) i ∧
          ∀ i', 0 ≤ i' < n →
                index ∈ worker_indices T n (T `quot` n) i' → i' = i).
Proof.
  intros HT Hn.
  assert (is_int T) as HTi by (unfold is_int, INT_MIN; lia).
  split_and!.
  - rewrite worker_start_exact by (auto; lia). lia.
  - rewrite worker_end_exact by (auto; lia). by rewrite decide_True.
  - intros i Hi. split.
    + rewrite worker_end_exact, worker_start_exact by (auto; lia).
      by rewrite decide_False by lia.
    + rewrite worker_indices_length by (auto; lia).
      by rewrite decide_False by lia.
  - rewrite worker_indices_length by (auto; lia). by rewrite decide_True.
  - intros index Hidx. by apply worker_of_index.
Qed.

Lemma partition_of_indices_witness :
  worker_start (7 `quot` 3) 0 = 0 ∧
  worker_end 7 3 (7 `quot` 3) (3 - 1) = 7 ∧
  (∀ i, 0 ≤ i < 3 - 1 →
     worker_end 7 3 (7 `quot` 3) i = worker_start (7 `quot` 3) (i + 1) ∧
     Z.of_nat (length (worker_indices 7 3 (7 `quot` 3) i)) = 7 `quot` 3) ∧
  Z.of_nat (length (worker_indices 7 3 (7 `quot` 3) (3 - 1)))
    = 7 - (3 - 1) * (7 `quot` 3) ∧
  (∀ index, 0 ≤ index < 7 →
     ∃ i, 0 ≤ i < 3 ∧ index ∈ worker_indices 7 3 (7 `quot` 3) i ∧
          ∀ i', 0 ≤ i' < 3 →
                index ∈ worker_indices 7 3 (7 `quot` 3) i' → i' = i).
Proof. apply (partition_of_indices 7 3); unfold INT_MAX; lia. Defined.

(** X3: whatever the sizes, every statement of a worker stays inside the
    three matrices, and two statements that name the same cell of [result]
    belong to the same worker: no cell is written by two threads. *)
Theorem workers_own_cells (A B : Matrix) (n i i' : Z) (o o' : op) :
  0 ≤ rows A → 0 ≤ cols B → 1 ≤ n ≤ INT_MAX → 0 ≤ i < n → 0 ≤ i' < n →
  o ∈ worker_ops A B n (int_mul (rows A) (cols B) `quot` n) i →
  o' ∈ worker_ops A B n (int_mul (rows A) (cols B) `quot` n) i' →
  op_ok A B o ∧ op_ok A B o' ∧
  ((o.1.1, o.1.2) = (o'.1.1, o'.1.2) → i = i').
Proof.
  intros Hr Hc Hn Hi Hi' Ho Ho'.
  pose proof (par_ops_ok A B n Hr Hc Hn) as Hok.
  rewrite Forall_forall in Hok. split_and!.
  - apply Hok. unfold par_ops. apply list_elem_of_bind.
    exists i. split; [done|]. apply elem_of_seqZ. lia.
  - apply Hok. unfold par_ops. apply list_elem_of_bind.
    exists i'. split; [done|]. apply elem_of_seqZ. lia.
  - intros Hsame. destruct (decide (i = i')) as [|Hne]; [done|].
    by destruct (workers_disjoint A B n i i' o o' Hn Hi Hi' Hne Ho Ho').
Qed.

Lemma workers_own_cells_witness :
  op_ok mA mB (0, 1, 1) ∧ op_ok mA mB (1, 0, 0) ∧
  (((0, 1, 1) : op).1.1, ((0, 1, 1) : op).1.2)
    ≠ (((1, 0, 0) : op).1.1, ((1, 0, 0) : op).1.2).
Proof.
  destruct (workers_own_cells mA mB 2 0 1 (0, 1, 1) (1, 0, 0))
    as (H1 & H2 & H3); try (unfold INT_MAX; simpl; lia).
  - apply list_elem_of_In. vm_compute. tauto.
  - apply list_elem_of_In. vm_compute. tauto.
  - split; [exact H1|]. split; [exact H2|]. intros Heq. by specialize (H3 Heq).
Defined.

(** ** [multiplyParallel] at every size *)

(** The workers visit, one after the other, the indices below the [int]
    that [rows * other.cols] wraps to. *)
Lemma par_ops_indices A B n :
  1 ≤ n ≤ INT_MAX →
  par_ops A B n = seqZ 0 (int_mul (rows A) (cols B)) ≫= cell_ops A B.
Proof.
  intros Hn. destruct (Z.le_gt_cases 0 (int_mul (rows A) (cols B))) as [H0|H0].
  - unfold par_ops, worker_ops. rewrite <- bind_assoc_list.
    rewrite ranges_cover; [done| |done].
    pose proof (wrap_is_int (rows A * cols B)) as [_ ?]. unfold int_mul in *. lia.
  - rewrite par_ops_overflow by (auto; lia). by rewrite seqZ_nil by lia.
Qed.

(** The index [i * cols + j] is the only one whose statements name the cell
    [(i, j)]. *)
Lemma contrib_indices A B T i j :
  0 ≤ i → 0 ≤ j < cols B →
  contrib i j (seqZ 0 T ≫= cell_ops A B) =
    if decide (i * cols B + j < T) then seqZ 0 (cols A) else [].
Proof.
  intros Hi Hj. unfold contrib. rewrite omap_bind_list.
  assert (∀ index, 0 ≤ index → index ≠ i * cols B + j →
            contrib i j (cell_ops A B index) = []) as Hother.
  { intros index Hidx Hne. apply contrib_cell_other. intros [Hq Hr].
    apply Hne. rewrite (Z.quot_rem' index (cols B)), Hq, Hr. lia. }
  case_decide as Hin.
  - rewrite (bind_single _ _ (i * cols B + j)).
    + unfold cell_ops.
      rewrite <- (Z.quot_unique (i * cols B + j) (cols B) i j) by nia.
      rewrite <- (Z.rem_unique (i * cols B + j) (cols B) i j) by nia.
      apply contrib_cell_same.
    + apply NoDup_seqZ.
    + apply elem_of_seqZ. nia.
    + intros index Hidx%elem_of_seqZ Hne. apply Hother; [lia|done].
  - apply bind_nil. intros index Hidx%elem_of_seqZ. apply Hother; lia.
Qed.

(** X4: what [multiplyParallel] returns at every size, for at least one
    worker: a matrix of the shape of the product, in which the cell
    [(i, j)] holds the inner product (wrapped to [int]) when its index
    [i * cols + j] is below the [int] that [rows * other.cols] wraps to,
    and is left at 0 otherwise. *)
Theorem multiplyParallel_cells (A B : Matrix) (n : Z) :
  wf A → wf B → cols A = rows B → 1 ≤ n ≤ INT_MAX →
  ∃ C, multiplyParallel A B n = Ret C ∧
    rows C = rows A ∧ cols C = cols B ∧ wf C ∧
    ∀ i j, 0 ≤ i < rows A → 0 ≤ j < cols B →
      at_ C i j =
        Ret (if decide (i * cols B + j < int_mul (rows A) (cols B))
             then wrap (inner A B i j) else 0).
Proof.
  intros HA HB Hdim Hn.
  destruct (multiplyParallel_frame_spec A B n HA HB Hdim Hn)
    as (d & Hrun & Hs & Hi & Hc).
  pose proof (wf_result A B d HA HB Hs Hi) as Hwf.
  exists (mkMatrix (rows A) (cols B) d). split_and!; try done.
  - unfold multiplyParallel. by rewrite Hrun.
  - intros i j Hi' Hj'. rewrite at_cell by done. simpl. f_equal.
    rewrite Hc by done. rewrite par_ops_indices by done.
    rewrite contrib_indices by lia.
    case_decide; [apply inner_int_inner|done].
Qed.

Lemma multiplyParallel_cells_witness :
  ∃ C, multiplyParallel mA mB 3 = Ret C ∧
    rows C = rows mA ∧ cols C = cols mB ∧ wf C ∧
    ∀ i j, 0 ≤ i < rows mA → 0 ≤ j < cols mB →
      at_ C i j =
        Ret (if decide (i * cols mB + j < int_mul (rows mA) (cols mB))
             then wrap (inner mA mB i j) else 0).
Proof.
  apply (multiplyParallel_cells mA mB 3 wf_mA wf_mB); [reflexivity|].
  unfold INT_MAX. lia.
Defined.

(** ** Matrices as values *)

(** A matrix that satisfies the class invariant is its dimensions and its
    cells. *)
Lemma matrix_ext m1 m2 :
  wf m1 → wf m2 → rows m1 = rows m2 → cols m1 = cols m2 →
  (∀ i j, 0 ≤ i < rows m1 → 0 ≤ j < cols m1 →
     cell (data m1) i j = cell (data m2) i j) →
  m1 = m2.
Proof.
  intros (_ & _ & Hs1 & _) (_ & _ & Hs2 & _) Hr Hc Hcell.
  destruct m1 as [r1 c1 d1], m2 as [r2 c2 d2]. simpl in *. subst r2 c2.
  f_equal. by apply (shape_ext r1 c1).
Qed.

Lemma all_cells_cell (P : Z → Prop) n m d i j :
  shape n m d → all_cells P d → 0 ≤ i < n → 0 ≤ j < m → P (cell d i j).
Proof.
  intros Hd Hall Hi Hj. destruct (shape_lookup n m d i Hd Hi) as (r & Hr & Hlen).
  destruct (lookup_lt_is_Some_2 r (Z.to_nat j)) as [x Hx]; [lia|].
  unfold cell. rewrite Hr. simpl. rewrite Hx. simpl.
  pose proof (Forall_lookup_1 _ _ _ _ Hall Hr) as Hrow.
  by apply (Forall_lookup_1 _ _ _ _ Hrow Hx).
Qed.

(** X5: a write through [at] leaves every other cell as it was, for reads
    inside and outside the bounds; a second write to the same cell
    replaces the first; and writing back the value read before restores
    the matrix. *)
Theorem at_set_other_cells (m : Matrix) (row col v : Z) :
  wf m → 0 ≤ row < rows m → 0 ≤ col < cols m → is_int v →
  ∃ m', at_set m row col v = Ret m' ∧
    (∀ r c, (r, c) ≠ (row, col) → at_ m' r c = at_ m r c) ∧
    (∀ w, is_int w → at_set m' row col w = at_set m row col w) ∧
    (∀ old, at_ m row col = Ret old → at_set m' row col old = Ret m).
Proof.
  intros Hm Hrow Hcol Hv.
  destruct (at_set_ok m row col v Hm Hrow Hcol Hv)
    as (m' & Hset & Hm' & Hr & Hc & Hcell).
  exists m'. split; [done|]. split_and!.
  - intros r c Hne.
    destruct (decide (0 ≤ r < rows m ∧ 0 ≤ c < cols m)) as [[Hr' Hc']|Hout].
    + rewrite (at_cell m' r c Hm'), (at_cell m r c Hm) by lia.
      rewrite Hcell by lia. rewrite decide_False; [done|].
      intros [-> ->]. done.
    + unfold at_. rewrite Hr, Hc. by rewrite !decide_True by lia.
  - intros w Hw.
    destruct (at_set_ok m row col w Hm Hrow Hcol Hw)
      as (m1 & -> & Hm1 & Hr1 & Hc1 & Hcell1).
    destruct (at_set_ok m' row col w Hm') as (m2 & -> & Hm2 & Hr2 & Hc2 & Hcell2);
      [lia|lia|done|].
    f_equal. apply matrix_ext; try done; try lia.
    intros i j Hi Hj. rewrite Hcell1, Hcell2, Hcell by lia.
    by case_decide.
  - intros old Hold. rewrite at_cell in Hold by done. injection Hold as <-.
    destruct (at_set_ok m' row col (cell (data m) row col) Hm')
      as (m2 & -> & Hm2 & Hr2 & Hc2 & Hcell2); [lia|lia| |].
    { apply cell_is_int. by destruct Hm as (_ & _ & _ & ?). }
    f_equal. apply matrix_ext; try done; try lia.
    intros i j Hi Hj. rewrite Hcell2, Hcell by lia.
    case_decide as Heq; [|done]. by destruct Heq as [-> ->].
Qed.

Lemma at_set_other_cells_witness :
  ∃ m', at_set mA 0 1 9 = Ret m' ∧
    (∀ r c, (r, c) ≠ (0, 1) → at_ m' r c = at_ mA r c) ∧
    (∀ w, is_int w → at_set m' 0 1 w = at_set mA 0 1 w) ∧
    (∀ old, at_ mA 0 1 = Ret old → at_set m' 0 1 old = Ret mA).
Proof.
  apply (at_set_other_cells mA 0 1 9 wf_mA); [simpl; lia|simpl; lia|by vm_compute].
Defined.

(** ** The identity matrix *)

Lemma diagonal_run l : ∀ m,
  wf m → Forall (λ i, 0 ≤ i < rows m ∧ 0 ≤ i < cols m) l →
  ∃ m', foldM (λ i m, at_set m i i 1) l m = Ret m' ∧ wf m' ∧
    rows m' = rows m ∧ cols m' = cols m ∧
    ∀ i j, 0 ≤ i → 0 ≤ j →
      cell (data m') i j =
        if decide (i = j ∧ i ∈ l) then 1 else cell (data m) i j.
Proof.
  induction l as [|i0 l IH]; intros m Hm Hl.
  - exists m. split_and!; try done. intros i j _ _.
    rewrite decide_False; [done|]. intros [_ H]. by apply elem_of_nil in H.
  - apply Forall_cons in Hl as [[Hi0 Hi0'] Hl].
    destruct (at_set_ok m i0 i0 1 Hm Hi0 Hi0')
      as (m1 & Hset & Hm1 & Hr1 & Hc1 & Hcell1); [by vm_compute|].
    destruct (IH m1 Hm1) as (m' & Hrun & Hm' & Hr' & Hc' & Hcell').
    { by rewrite Hr1, Hc1. }
    exists m'. split_and!; try congruence.
    + simpl. rewrite Hset. simpl. exact Hrun.
    + intros i j Hi Hj. rewrite Hcell', Hcell1 by done.
      repeat case_decide; try done.
      * exfalso. destruct_and!. subst.
        match goal with H : ¬ _ |- _ => apply H end. split; [done|by right].
      * exfalso. destruct_and!. subst.
        match goal with H : ¬ _ |- _ => apply H end. split; [done|left].
      * exfalso. destruct_and!. subst.
        match goal with H : _ ∈ _ :: _ |- _ =>
          apply elem_of_cons in H as [->|?] end; tauto.
Qed.

Lemma identity_spec n :
  0 ≤ n ≤ INT_MAX →
  ∃ m, identity n = Ret m ∧ wf m ∧ rows m = n ∧ cols m = n ∧
    ∀ i j, 0 ≤ i < n → 0 ≤ j < n →
      cell (data m) i j = if decide (i = j) then 1 else 0.
Proof.
  intros Hn.
  destruct (diagonal_run (seqZ 0 n) (zero_matrix n n))
    as (m & Hrun & Hm & Hr & Hc & Hcell).
  { by apply wf_zero_matrix. }
  { apply Forall_seqZ. simpl. lia. }
  exists m. split_and!; try done.
  - unfold identity. rewrite Construct_ok by lia. exact Hrun.
  - intros i j Hi Hj. rewrite Hcell by lia. simpl.
    rewrite cell_replicate by lia.
    destruct (decide (i = j)) as [->|Hne].
    + rewrite decide_True; [done|]. split; [done|]. apply elem_of_seqZ. lia.
    + rewrite decide_False; [done|]. by intros [? _].
Qed.

Lemma sum_zero (h : Z → Z) (l : list Z) :
  (∀ k, k ∈ l → h k = 0) → foldr Z.add 0 (h <$> l) = 0.
Proof.
  induction l as [|k l IH]; intros Hzero; [done|].
  rewrite fmap_cons. cbn [foldr]. rewrite (Hzero k) by left.
  rewrite IH; [done|]. intros k' Hk'. apply Hzero. by right.
Qed.

(** A sum in which one term alone is not zero. *)
Lemma sum_single (h : Z → Z) (l : list Z) (j : Z) :
  NoDup l → j ∈ l → (∀ k, k ∈ l → k ≠ j → h k = 0) →
  foldr Z.add 0 (h <$> l) = h j.
Proof.
  induction l as [|k l IH]; intros Hnd Hin Hzero.
  - by apply elem_of_nil in Hin.
  - apply NoDup_cons in Hnd as [Hk Hnd]. rewrite fmap_cons. cbn [foldr].
    apply elem_of_cons in Hin as [->|Hin].
    + rewrite sum_zero; [lia|]. intros k' Hk'.
      apply Hzero; [by right|]. intros ->. by apply Hk.
    + rewrite (Hzero k); [|left|intros ->; by apply Hk].
      rewrite IH; [lia|done|done|]. intros k' Hk' Hne.
      apply Hzero; [by right|done].
Qed.

(** X6: the identity matrix, built with the constructor and [n] writes
    through [at], is neutral for [multiply] on both sides: the product is
    the other operand, cell for cell and in its dimensions. *)
Theorem identity_neutral (A : Matrix) :
  wf A →
  ∃ Il Ir, identity (rows A) = Ret Il ∧ identity (cols A) = Ret Ir ∧
           multiply Il A = Ret A ∧ multiply A Ir = Ret A.
Proof.
  intros HA. pose proof HA as (HrA & HcA & HsA & HiA).
  destruct (identity_spec (rows A) HrA) as (Il & HIl & HwfIl & Hrl & Hcl & Hl).
  destruct (identity_spec (cols A) HcA) as (Ir & HIr & HwfIr & Hrr & Hcr & Hr).
  exists Il, Ir. split; [done|]. split; [done|]. split.
  - destruct (multiply_frame_spec Il A HwfIl HA) as (d & Hrun & Hs & Hi & Hc);
      [congruence|].
    unfold multiply. rewrite Hrun. simpl. f_equal.
    apply matrix_ext; simpl; try done.
    + by apply (wf_result Il A).
    + intros i j Hi' Hj'. rewrite Hc by done. rewrite inner_int_inner.
      unfold inner, sum_to. rewrite (sum_single _ _ i).
      * rewrite Hl by lia. rewrite decide_True by done.
        rewrite Z.mul_1_l. apply wrap_id. by apply cell_is_int.
      * apply NoDup_seqZ.
      * apply elem_of_seqZ. lia.
      * intros k Hk%elem_of_seqZ Hne. rewrite Hl by lia.
        rewrite decide_False by done. lia.
  - destruct (multiply_frame_spec A Ir HA HwfIr) as (d & Hrun & Hs & Hi & Hc);
      [congruence|].
    unfold multiply. rewrite Hrun. simpl. f_equal.
    apply matrix_ext; simpl; try done.
    + by apply (wf_result A Ir).
    + intros i j Hi' Hj'. rewrite Hc by done. rewrite inner_int_inner.
      unfold inner, sum_to. rewrite (sum_single _ _ j).
      * rewrite Hr by lia. rewrite decide_True by done.
        rewrite Z.mul_1_r. apply wrap_id. by apply cell_is_int.
      * apply NoDup_seqZ.
      * apply elem_of_seqZ. lia.
      * intros k Hk%elem_of_seqZ Hne. rewrite Hr by lia.
        rewrite decide_False by done. lia.
Qed.

Lemma identity_neutral_witness :
  ∃ Il Ir, identity (rows mA) = Ret Il ∧ identity (cols mA) = Ret Ir ∧
           multiply Il mA = Ret mA ∧ multiply mA Ir = Ret mA.
Proof. apply (identity_neutral mA wf_mA). Defined.

(** ** Products of filled matrices, and of empty ones *)

Lemma sum_bounds (h : Z → Z) (l : list Z) (lo hi : Z) :
  (∀ k, k ∈ l → lo ≤ h k ≤ hi) →
  lo * Z.of_nat (length l) ≤ foldr Z.add 0 (h <$> l) ≤ hi * Z.of_nat (length l).
Proof.
  induction l as [|k l IH]; intros Hb.
  - simpl. lia.
  - rewrite fmap_cons. cbn [foldr length]. rewrite Nat2Z.inj_succ.
    pose proof (Hb k ltac:(left)).
    assert (∀ k', k' ∈ l → lo ≤ h k' ≤ hi) as Hb' by (intros; apply Hb; by right).
    specialize (IH Hb'). lia.
Qed.

(** The inner product of a row and a column of numbers between 1 and 10. *)
Lemma inner_filled_bounds A B i j :
  shape (rows A) (cols A) (data A) → shape (rows B) (cols B) (data B) →
  cols A = rows B → 0 ≤ cols A →
  all_cells (λ v, 1 ≤ v ≤ 10) (data A) → all_cells (λ v, 1 ≤ v ≤ 10) (data B) →
  0 ≤ i < rows A → 0 ≤ j < cols B →
  cols A ≤ inner A B i j ≤ 100 * cols A.
Proof.
  intros HsA HsB Hdim Hc HfA HfB Hi Hj. unfold inner, sum_to.
  pose proof (sum_bounds (λ k, cell (data A) i k * cell (data B) k j)
                (seqZ 0 (cols A)) 1 100) as Hsum.
  rewrite length_seqZ, Z2Nat.id in Hsum by lia.
  assert (∀ k, k ∈ seqZ 0 (cols A) →
            1 ≤ cell (data A) i k * cell (data B) k j ≤ 100) as Hterm.
  { intros k Hk%elem_of_seqZ.
    pose proof (all_cells_cell _ _ _ _ i k HsA HfA) as Ha.
    pose proof (all_cells_cell _ _ _ _ k j HsB HfB) as Hb.
    simpl in Ha, Hb.
    specialize (Ha ltac:(lia) ltac:(lia)). specialize (Hb ltac:(lia) ltac:(lia)).
    nia. }
  specialize (Hsum Hterm). lia.
Qed.

(** X7: the product of two matrices whose cells are between 1 and 10, as
    [fill_increment_value] leaves them, does not wrap as long as
    [100 * cols] fits an [int]: each cell of the result is the inner product
    in the integers, and lies between [cols] and [100 * cols]. *)
Theorem filled_product_exact (A B : Matrix) :
  wf A → wf B → cols A = rows B →
  all_cells (λ v, 1 ≤ v ≤ 10) (data A) → all_cells (λ v, 1 ≤ v ≤ 10) (data B) →
  100 * cols A ≤ INT_MAX →
  ∃ C, multiply A B = Ret C ∧
    ∀ i j, 0 ≤ i < rows A → 0 ≤ j < cols B →
      at_ C i j = Ret (inner A B i j) ∧
      cols A ≤ inner A B i j ≤ 100 * cols A.
Proof.
  intros HA HB Hdim HfA HfB Hfit.
  destruct (multiply_cells A B HA HB Hdim) as (C & Hrun & _ & _ & _ & Hcell).
  exists C. split; [done|]. intros i j Hi Hj.
  destruct HA as (HrA & HcA & HsA & _), HB as (HrB & HcB & HsB & _).
  pose proof (inner_filled_bounds A B i j HsA HsB Hdim ltac:(lia) HfA HfB Hi Hj)
    as Hb.
  split; [|done]. rewrite Hcell by done. f_equal.
  rewrite inner_int_inner. apply wrap_id.
  unfold is_int, INT_MIN, INT_MAX in *. lia.
Qed.

Lemma filled_product_exact_witness :
  ∃ C, multiply mA mB = Ret C ∧
    ∀ i j, 0 ≤ i < rows mA → 0 ≤ j < cols mB →
      at_ C i j = Ret (inner mA mB i j) ∧
      cols mA ≤ inner mA mB i j ≤ 100 * cols mA.
Proof.
  apply (filled_product_exact mA mB wf_mA wf_mB); try by vm_compute.
  - apply (bool_decide_unpack _). by vm_compute.
  - apply (bool_decide_unpack _). by vm_compute.
Defined.

(** X8: with an inner dimension of zero ([A] without columns, [B] without
    rows) both multiplications return the zero matrix of [A.rows] rows and
    [B.cols] columns: no statement is executed, and no vector is read. *)
Theorem multiply_empty_inner (A B : Matrix) (n : Z) :
  wf A → wf B → cols A = 0 → rows B = 0 → 1 ≤ n ≤ INT_MAX →
  seq_ops A B = [] ∧ par_ops A B n = [] ∧
  multiply A B = Ret (zero_matrix (rows A) (cols B)) ∧
  multiplyParallel A B n = Ret (zero_matrix (rows A) (cols B)).
Proof.
  intros HA HB HcA HrB Hn.
  pose proof HA as (HrA & _). pose proof HB as (_ & HcB & _).
  assert (seq_ops A B = []) as Hseq.
  { unfold seq_ops. apply bind_nil. intros i _. apply bind_nil. intros j _.
    by rewrite HcA. }
  assert (par_ops A B n = []) as Hpar.
  { rewrite par_ops_indices by done. apply bind_nil. intros index _.
    unfold cell_ops. by rewrite HcA. }
  split; [done|]. split; [done|]. split.
  - unfold multiply, multiply_frame. rewrite decide_False by (intros ?; lia).
    rewrite Construct_ok by lia. simpl. by rewrite loops_seq_ops, Hseq.
  - unfold multiplyParallel.
    rewrite multiplyParallel_frame_ops by lia. by rewrite Hpar.
Qed.

Lemma multiply_empty_inner_witness :
  seq_ops (zero_matrix 2 0) (zero_matrix 0 3) = [] ∧
  par_ops (zero_matrix 2 0) (zero_matrix 0 3) 4 = [] ∧
  multiply (zero_matrix 2 0) (zero_matrix 0 3) = Ret (zero_matrix 2 3) ∧
  multiplyParallel (zero_matrix 2 0) (zero_matrix 0 3) 4 = Ret (zero_matrix 2 3).
Proof.
  apply (multiply_empty_inner (zero_matrix 2 0) (zero_matrix 0 3) 4);
    try reflexivity; try (unfold INT_MAX; lia);
    apply wf_zero_matrix; unfold INT_MAX; lia.
Defined.

(** ** The validation of [demo] *)

Lemma validate_row_spec S M i js :
  wf S → wf M → rows M = rows S → cols M = cols S → 0 ≤ i < rows S →
  Forall (λ j, 0 ≤ j < cols S) js →
  ∃ b : bool, validate_row S M i js = Ret b ∧
    (b = true ↔ ∀ j, j ∈ js → cell (data S) i j = cell (data M) i j).
Proof.
  intros HS HM Hr Hc Hi. induction js as [|j js IH]; intros Hjs.
  - exists true. split; [done|]. split; [|done]. intros _ j Hj.
    by apply elem_of_nil in Hj.
  - apply Forall_cons in Hjs as [Hj Hjs]. destruct (IH Hjs) as (b & Hrun & Hb).
    cbn [validate_row]. rewrite (at_cell S), (at_cell M) by (auto; lia). simpl.
    case_decide as Hne.
    + exists false. split; [done|]. split; [done|]. intros Hall.
      destruct Hne. apply Hall. left.
    + exists b. split; [done|]. rewrite Hb. split.
      * intros Hall j' [->|?]%elem_of_cons; [|by apply Hall].
        destruct (decide (cell (data S) i j = cell (data M) i j)); tauto.
      * intros Hall j' Hj'. apply Hall. by right.
Qed.

Lemma validate_rows_spec S M rs :
  wf S → wf M → rows M = rows S → cols M = cols S →
  Forall (λ i, 0 ≤ i < rows S) rs →
  ∃ b : bool, validate_rows S M (cols S) rs = Ret b ∧
    (b = true ↔ ∀ i j, i ∈ rs → 0 ≤ j < cols S →
                  cell (data S) i j = cell (data M) i j).
Proof.
  intros HS HM Hr Hc. induction rs as [|i rs IH]; intros Hrs.
  - exists true. split; [done|]. split; [|done]. intros _ i j Hi.
    by apply elem_of_nil in Hi.
  - apply Forall_cons in Hrs as [Hi Hrs]. destruct (IH Hrs) as (b & Hrun & Hb).
    destruct (validate_row_spec S M i (seqZ 0 (cols S)) HS HM Hr Hc Hi)
      as (b1 & Hrow & Hb1); [apply Forall_seqZ; lia|].
    cbn [validate_rows]. rewrite Hrow. simpl. destruct b1.
    + exists b. split; [done|]. rewrite Hb. split.
      * intros Hall i' j [->|?]%elem_of_cons Hj; [|by apply Hall].
        apply (proj1 Hb1 eq_refl). apply elem_of_seqZ. lia.
      * intros Hall i' j Hi' Hj. apply Hall; [by right|done].
    + exists false. split; [done|]. split; [done|]. intros Hall.
      apply Hb1. intros j Hj%elem_of_seqZ. apply Hall; [left|lia].
Qed.

(** X9: on two results of the same dimensions, the validation loops of
    [demo], with their two [break]s, stay inside the bounds of [at], and
    leave [valid] true if and only if the two matrices are equal. *)
Theorem validate_decides (S M : Matrix) :
  wf S → wf M → rows M = rows S → cols M = cols S →
  ∃ b : bool, validate S M (rows S) (cols S) = Ret b ∧ (b = true ↔ S = M).
Proof.
  intros HS HM Hr Hc.
  destruct (validate_rows_spec S M (seqZ 0 (rows S)) HS HM Hr Hc)
    as (b & Hrun & Hb); [apply Forall_seqZ; lia|].
  exists b. split; [exact Hrun|]. rewrite Hb. split.
  - intros Hall. apply matrix_ext; try done.
    intros i j Hi Hj. apply Hall; [apply elem_of_seqZ; lia|done].
  - by intros <-.
Qed.

Lemma validate_decides_witness :
  ∃ b : bool, validate mA mB (rows mA) (cols mA) = Ret b ∧ (b = true ↔ mA = mB).
Proof. apply (validate_decides mA mB wf_mA wf_mB); reflexivity. Defined.

(** ** [demo] *)

Section DemoProperties.
Context {G : Type} (dis : G → Z * G).
Hypothesis dis_range : ∀ g, 1 ≤ fst (dis g) ≤ 10.

(** The operands of [demo]: a constructed matrix, filled. *)
Lemma filled_operand r c g :
  0 ≤ r ≤ INT_MAX → 0 ≤ c ≤ INT_MAX →
  ∃ m, fill_increment_value dis (zero_matrix r c) g = Ret m ∧ wf m ∧
       rows m = r ∧ cols m = c ∧ all_cells (λ v, 1 ≤ v ≤ 10) (data m).
Proof.
  intros Hr Hc.
  destruct (fill_increment_value_wf dis dis_range (zero_matrix r c) g)
    as (d & Hrun & Hwf & Hcell); [by apply wf_zero_matrix|].
  exists (with_data (zero_matrix r c) d). split_and!; try done.
  destruct Hwf as (_ & _ & Hs & _). simpl in *.
  apply (all_cells_of_cells _ _ _ _ Hs). intros i j Hi Hj.
  rewrite Hcell by done. apply dis_range.
Qed.

(** [demo] stage by stage, for dimensions that match and at least one
    worker. *)
Lemma demo_stages r1 c1 r2 c2 n gA gB :
  0 ≤ r1 ≤ INT_MAX → 0 ≤ c1 ≤ INT_MAX → 0 ≤ r2 ≤ INT_MAX → 0 ≤ c2 ≤ INT_MAX →
  c1 = r2 → 1 ≤ n ≤ INT_MAX →
  ∃ (A B S M : Matrix) (valid : bool),
    demo dis r1 c1 r2 c2 n gA gB = (demo_report valid, Ret 0) ∧
    rows A = r1 ∧ cols A = c1 ∧ cols B = c2 ∧
    (∀ i j, 0 ≤ i < r1 → 0 ≤ j < c2 → c1 ≤ inner A B i j ≤ 100 * c1) ∧
    (∀ i j, 0 ≤ i < r1 → 0 ≤ j < c2 →
       cell (data S) i j = wrap (inner A B i j)) ∧
    (∀ i j, 0 ≤ i < r1 → 0 ≤ j < c2 →
       cell (data M) i j =
         if decide (i * c2 + j < int_mul r1 c2) then wrap (inner A B i j)
         else 0) ∧
    (valid = true ↔
       ∀ i j, 0 ≤ i < r1 → 0 ≤ j < c2 → cell (data S) i j = cell (data M) i j).
Proof.
  intros Hr1 Hc1 Hr2 Hc2 Hdim Hn.
  destruct (filled_operand r1 c1 gA Hr1 Hc1) as (A & HfA & HA & HrA & HcA & HaA).
  destruct (filled_operand r2 c2 gB Hr2 Hc2) as (B & HfB & HB & HrB & HcB & HaB).
  assert (cols A = rows B) as Hdim' by congruence.
  destruct (multiply_frame_spec A B HA HB Hdim') as (dS & HrunS & HsS & HiS & HcS).
  destruct (multiplyParallel_frame_spec A B n HA HB Hdim' Hn)
    as (dM & HrunM & HsM & HiM & HcM).
  pose proof (wf_result A B dS HA HB HsS HiS) as HwfS.
  pose proof (wf_result A B dM HA HB HsM HiM) as HwfM.
  destruct (validate_rows_spec (mkMatrix (rows A) (cols B) dS)
              (mkMatrix (rows A) (cols B) dM) (seqZ 0 (rows A)) HwfS HwfM)
    as (valid & Hval & Hvalid); [done|done|apply Forall_seqZ; simpl; lia|].
  simpl in Hval, Hvalid.
  exists A, B, (mkMatrix (rows A) (cols B) dS),
    (mkMatrix (rows A) (cols B) dM), valid.
  split_and!; try done.
  - unfold demo. rewrite !Construct_ok by lia. cbn [mbind outcome_bind].
    rewrite HfA. cbn [mbind outcome_bind]. rewrite HfB.
    cbn [mbind outcome_bind mret outcome_ret quiet io_bind].
    unfold multiply, multiplyParallel. rewrite HrunS, HrunM.
    cbn [mbind outcome_bind mret outcome_ret quiet io_bind print result_ app].
    unfold validate. rewrite <- HrA, <- HcB, Hval. by destruct valid.
  - intros i j Hi Hj. destruct HA as (_ & ? & HsA & _), HB as (_ & _ & HsB & _).
    rewrite <- HcA. apply inner_filled_bounds; auto; lia.
  - intros i j Hi Hj. simpl. rewrite HcS by lia. apply inner_int_inner.
  - intros i j Hi Hj. simpl. rewrite HcM by lia.
    rewrite par_ops_indices by done. rewrite contrib_indices by lia.
    rewrite HrA, HcB. case_decide; [apply inner_int_inner|done].
  - rewrite Hvalid. rewrite HrA, HcB. split.
    + intros Hall i j Hi Hj. apply Hall; [apply elem_of_seqZ; lia|done].
    + intros Hall i j Hi%elem_of_seqZ Hj. apply Hall; lia.
Qed.

(** X10: when the inner dimensions disagree, [demo] throws
    [invalid_argument] out of [multiply], having filled both operands and
    written nothing; the number of workers is not looked at. *)
Theorem demo_mismatch (r1 c1 r2 c2 n : Z) (gA gB : G) :
  0 ≤ r1 ≤ INT_MAX → 0 ≤ c1 ≤ INT_MAX → 0 ≤ r2 ≤ INT_MAX → 0 ≤ c2 ≤ INT_MAX →
  c1 ≠ r2 →
  demo dis r1 c1 r2 c2 n gA gB = ([], Throw invalid_argument).
Proof.
  intros Hr1 Hc1 Hr2 Hc2 Hdim.
  destruct (filled_operand r1 c1 gA Hr1 Hc1) as (A & HfA & HA & HrA & HcA & _).
  destruct (filled_operand r2 c2 gB Hr2 Hc2) as (B & HfB & HB & HrB & HcB & _).
  unfold demo. rewrite !Construct_ok by lia. cbn [mbind outcome_bind].
  rewrite HfA. cbn [mbind outcome_bind]. rewrite HfB.
  cbn [mbind outcome_bind mret outcome_ret quiet io_bind].
  unfold multiply, multiply_frame. rewrite decide_True by congruence. done.
Qed.


(** X12: when the number of cells of the result does not fit an [int]
    (and [100 * col_1] does, so that no inner product wraps), the
    validation of [demo] finds the two results different: [demo] writes
    "Results differ!" and returns 0. *)
Theorem demo_reports_overflow (r1 c1 r2 c2 n : Z) (gA gB : G) :
  1 ≤ r1 ≤ INT_MAX → 1 ≤ c1 → 100 * c1 ≤ INT_MAX → 1 ≤ c2 ≤ INT_MAX →
  c1 = r2 → 1 ≤ n ≤ INT_MAX → INT_MAX < r1 * c2 →
  demo dis r1 c1 r2 c2 n gA gB = (demo_report false, Ret 0).
Proof.
  intros Hr1 Hc1 Hc1' Hc2 Hdim Hn Hover.
  destruct (demo_stages r1 c1 r2 c2 n gA gB)
    as (A & B & S & M & valid & Hdemo & _ & _ & _ & Hin & HS & HM & Hvalid);
    try (unfold INT_MAX in *; lia).
  destruct valid; [exfalso|exact Hdemo].
  pose proof (wrap_is_int (r1 * c2)) as [_ HT]. fold (int_mul r1 c2) in HT.
  set (index := Z.max 0 (int_mul r1 c2)).
  assert (0 ≤ index < r1 * c2) as Hidx by (unfold index; lia).
  destruct (index_split r1 c2 index) as (_ & Hi & Hj); [lia|lia|done|].
  pose proof (Z.quot_rem' index c2) as Hqr.
  pose proof (proj1 Hvalid eq_refl _ _ Hi Hj) as Heq.
  rewrite HS, HM in Heq by done.
  rewrite decide_False in Heq by (unfold index in *; lia).
  specialize (Hin _ _ Hi Hj).
  rewrite wrap_id in Heq by (unfold is_int, INT_MIN, INT_MAX in *; lia).
  lia.
Qed.

End DemoProperties.

Lemma demo_mismatch_witness :
  demo counter_dis 2 3 4 2 2 0 5 = ([], Throw invalid_argument).
Proof.
  apply (demo_mismatch counter_dis counter_dis_range); unfold INT_MAX; lia.
Defined.


Lemma demo_reports_overflow_witness :
  demo counter_dis 46341 1 1 46341 2 0 5 = (demo_report false, Ret 0).
Proof.
  apply (demo_reports_overflow counter_dis counter_dis_range);
    unfold INT_MAX; lia.
Defined.

(** ** [SafeIntInput] and [main] *)

Section DriverProperties.
Context {G In : Type} (dis : G → Z * G).
Context (extract_int : In → Z → In * Z) (extract_char : In → ascii → In * ascii).
Context (fail : In → bool) (clear ignore_line : In → In).
Context (seeds : nat → G * G).

Local Abbreviation retry := (SafeIntInput_retry extract_int fail clear ignore_line).
Local Abbreviation input_int := (SafeIntInput extract_int fail clear ignore_line).
Local Abbreviation nth_attempt := (attempt extract_int clear ignore_line).
Local Abbreviation loop := (main_loop extract_int extract_char fail clear ignore_line seeds).

(** The lines of [k] refused inputs. *)
Local Abbreviation refused k info :=
  (concat (replicate k [Text "Invalid input. "; Text info])).

Lemma accepted_guard (r : In * Z) :
  fail r.1 || bool_decide (r.2 < 1) = false ↔ accepted fail r.
Proof.
  unfold accepted. rewrite orb_false_iff, bool_decide_eq_false.
  split; intros [? ?]; split; auto; lia.
Qed.

(** The loop of [SafeIntInput], entered after the attempt [k0], when the
    attempt [k0 + k] is the first one accepted. *)
Lemma retry_first_accepted cin input info k : ∀ k0 fuel,
  (∀ k', (k' < k)%nat → ¬ accepted fail (nth_attempt cin input (k0 + k'))) →
  accepted fail (nth_attempt cin input (k0 + k)) →
  (k ≤ fuel)%nat →
  retry fuel info (nth_attempt cin input k0).1 (nth_attempt cin input k0).2
  = Some (refused k info, nth_attempt cin input (k0 + k)).
Proof.
  induction k as [|k IH]; intros k0 fuel Hbad Hgood Hfuel.
  - rewrite Nat.add_0_r in *. apply accepted_guard in Hgood.
    destruct fuel; simpl; rewrite Hgood; by destruct (nth_attempt cin input k0).
  - destruct fuel as [|fuel]; [lia|].
    pose proof (Hbad 0%nat ltac:(lia)) as H0. rewrite Nat.add_0_r in H0.
    rewrite <- accepted_guard in H0. apply not_false_is_true in H0.
    cbn [SafeIntInput_retry]. rewrite H0.
    specialize (IH (S k0) fuel). cbn [attempt] in IH.
    destruct (nth_attempt cin input k0) as [c v] eqn:E. cbn [fst snd] in *.
    destruct (extract_int (ignore_line (clear c)) v) as [c' v'] eqn:E'.
    cbn [fst snd] in IH. rewrite IH.
    + by replace (k0 + S k)%nat with (S k0 + k)%nat by lia.
    + intros k' Hk'. specialize (Hbad (S k') ltac:(lia)).
      replace (k0 + S k')%nat with (S (k0 + k')) in Hbad by lia.
      cbn [attempt] in Hbad. done.
    + replace (k0 + S k)%nat with (S (k0 + k)) in Hgood by lia.
      cbn [attempt] in Hgood. done.
    + lia.
Qed.

(** What [SafeIntInput] returns was accepted: the stream has not failed and
    the number is at least 1. *)
Lemma retry_accepted fuel info : ∀ cin input o r,
  retry fuel info cin input = Some (o, r) → accepted fail r.
Proof.
  induction fuel as [|fuel IH]; intros cin input o r; cbn [SafeIntInput_retry].
  - destruct (fail cin || bool_decide (input < 1)) eqn:Hg; [done|].
    intros [= <- <-]. by apply accepted_guard.
  - destruct (fail cin || bool_decide (input < 1)) eqn:Hg.
    + destruct (extract_int (ignore_line (clear cin)) input) as [c' v'].
      destruct (retry fuel info c' v') as [[o' r']|] eqn:E; [|done].
      intros [= <- <-]. by apply (IH c' v' o').
    + intros [= <- <-]. by apply accepted_guard.
Qed.

Lemma SafeIntInput_accepted fuel input info cin o r :
  input_int fuel input info cin = Some (o, r) → accepted fail r.
Proof.
  unfold SafeIntInput. destruct (extract_int cin input) as [c v].
  destruct (retry fuel info c v) as [[o' r']|] eqn:E; [|done].
  intros [= <- <-]. by apply (retry_accepted fuel info c v o').
Qed.

(** X13: if the first extraction accepted (the stream has not failed and
    the number read is at least 1) is the one after [k] refused ones,
    [SafeIntInput], given time for [k] turns of its loop, returns with the
    stream and the number of that extraction, having written the prompt
    once and "Invalid input. " with the prompt [k] times; the number it
    stores is at least 1. *)
Theorem SafeIntInput_first_accepted (k fuel : nat) (input : Z) (info : string)
    (cin : In) :
  (∀ k', (k' < k)%nat → ¬ accepted fail (nth_attempt cin input k')) →
  accepted fail (nth_attempt cin input k) →
  (k ≤ fuel)%nat →
  input_int fuel input info cin
    = Some (Text info :: refused k info, nth_attempt cin input k) ∧
  1 ≤ (nth_attempt cin input k).2.
Proof.
  intros Hbad Hgood Hfuel. split; [|by destruct Hgood].
  pose proof (retry_first_accepted cin input info k 0 fuel Hbad Hgood Hfuel)
    as Hrun.
  unfold SafeIntInput. cbn [attempt] in Hrun.
  destruct (extract_int cin input) as [c v]. cbn [fst snd] in Hrun.
  by rewrite Hrun.
Qed.

(** X14: [main] calls [demo] with arguments that are all at least 1: put
    in the place of [demo] any function that agrees with it on such
    arguments, and [main] behaves the same, whatever the standard input
    holds. *)
Theorem main_calls_demo_on_positive
    (d d' : Z → Z → Z → Z → Z → G → G → io Z) (fuel : nat) (cin : In) :
  (∀ r1 c1 r2 c2 n gA gB,
     1 ≤ r1 → 1 ≤ c1 → 1 ≤ r2 → 1 ≤ c2 → 1 ≤ n →
     d r1 c1 r2 c2 n gA gB = d' r1 c1 r2 c2 n gA gB) →
  main_with extract_int extract_char fail clear ignore_line seeds d fuel cin
  = main_with extract_int extract_char fail clear ignore_line seeds d' fuel cin.
Proof.
  intros Hagree. unfold main_with.
  generalize (mkVars 0 0 0 0 2 "N") as v. generalize 0%nat as t. revert cin.
  induction fuel as [|fuel IH]; intros cin t v; [done|].
  cbn [main_loop]. destruct (is_char (tolower (QUIT v)) "y"); [done|].
  destruct (input_int fuel (row_1 v) _ cin) as [[o1 [cin1 r1]]|] eqn:E1; [|done].
  cbn [mbind option_bind].
  destruct (input_int fuel (col_1 v) _ cin1) as [[o2 [cin2 c1]]|] eqn:E2; [|done].
  cbn [mbind option_bind].
  destruct (input_int fuel (row_2 v) _ cin2) as [[o3 [cin3 r2]]|] eqn:E3; [|done].
  cbn [mbind option_bind].
  destruct (input_int fuel (col_2 v) _ cin3) as [[o4 [cin4 c2]]|] eqn:E4; [|done].
  cbn [mbind option_bind].
  destruct (input_int fuel (num_threads v) _ cin4) as [[o5 [cin5 n]]|] eqn:E5;
    [|done].
  cbn [mbind option_bind].
  apply SafeIntInput_accepted in E1 as [_ ?], E2 as [_ ?], E3 as [_ ?],
    E4 as [_ ?], E5 as [_ ?]. cbn [snd] in *.
  rewrite Hagree by done.
  destruct (d' r1 c1 r2 c2 n (seeds t).1 (seeds t).2) as [od [z|e|]]; [| |done].
  - destruct (quit_retry _ _ _ _ fuel cin5 (QUIT v)) as [[oq [cin6 q]]|]; [|done].
    cbn [mbind option_bind]. by rewrite IH.
  - destruct (quit_retry _ _ _ _ fuel cin5 (QUIT v)) as [[oq [cin6 q]]|]; [|done].
    cbn [mbind option_bind]. by rewrite IH.
Qed.

End DriverProperties.

Section MainProperties.
Context {G In : Type} (dis : G → Z * G).
Context (extract_int : In → Z → In * Z) (extract_char : In → ascii → In * ascii).
Context (fail : In → bool) (clear ignore_line : In → In).
Context (seeds : nat → G * G).
(** The contract of [std::uniform_int_distribution<>(1, 10)], and the
    type of the variable [cin >> input] writes to. *)
Hypothesis dis_range : ∀ g, 1 ≤ fst (dis g) ≤ 10.
Hypothesis extract_int_is_int : ∀ cin v, is_int v → is_int (extract_int cin v).2.

Local Abbreviation retry := (SafeIntInput_retry extract_int fail clear ignore_line).
Local Abbreviation input_int := (SafeIntInput extract_int fail clear ignore_line).
Local Abbreviation loop :=
  (main_loop extract_int extract_char fail clear ignore_line seeds (demo dis)).






End MainProperties.


Lemma SafeIntInput_first_accepted_witness :
  SafeIntInput test_extract_int test_fail test_clear test_ignore_line
    5 0 "Enter the number of threads: " ([TJunk; TInt 0; TInt 3], false)
  = Some ([Text "Enter the number of threads: ";
           Text "Invalid input. "; Text "Enter the number of threads: ";
           Text "Invalid input. "; Text "Enter the number of threads: "],
          (([], false), 3)) ∧
  1 ≤ 3.
Proof.
  apply (SafeIntInput_first_accepted test_extract_int test_fail test_clear
           test_ignore_line 2 5 0 "Enter the number of threads: "
           ([TJunk; TInt 0; TInt 3], false)).
  - intros k' Hk' [Hf Hv]. destruct k' as [|[|k']]; [| |lia].
    + vm_compute in Hf. discriminate.
    + vm_compute in Hv. by apply Hv.
  - split; by vm_compute.
  - lia.
Defined.

Lemma main_calls_demo_on_positive_witness :
  main_with test_extract_int test_extract_char test_fail test_clear
    test_ignore_line test_seeds (demo counter_dis) 20 test_session
  = main_with test_extract_int test_extract_char test_fail test_clear
      test_ignore_line test_seeds guarded_demo 20 test_session.
Proof.
  apply (main_calls_demo_on_positive test_extract_int test_extract_char
           test_fail test_clear test_ignore_line test_seeds
           (demo counter_dis) guarded_demo 20 test_session).
  intros r1 c1 r2 c2 n gA gB H1 H2 H3 H4 H5. unfold guarded_demo.
  destruct (decide (1 ≤ r1 ∧ 1 ≤ c1 ∧ 1 ≤ r2 ∧ 1 ≤ c2 ∧ 1 ≤ n)) as [|Hno];
    [reflexivity|]. exfalso. apply Hno. lia.
Defined.


(** ** Associativity *)

Lemma wrap_mod x : wrap x `mod` 4294967296 = x `mod` 4294967296.
Proof.
  unfold wrap. rewrite Zminus_mod_idemp_l. f_equal. lia.
Qed.

Lemma wrap_eq_mod x y :
  x `mod` 4294967296 = y `mod` 4294967296 → wrap x = wrap y.
Proof.
  intros H. unfold wrap. f_equal.
  rewrite <- (Zplus_mod_idemp_l x), <- (Zplus_mod_idemp_l y). by rewrite H.
Qed.

Lemma wrap_mul_l a b : wrap (wrap a * b) = wrap (a * b).
Proof.
  apply wrap_eq_mod. rewrite Zmult_mod, wrap_mod, <- Zmult_mod. done.
Qed.

Lemma wrap_mul_r a b : wrap (a * wrap b) = wrap (a * b).
Proof. rewrite (Z.mul_comm a), wrap_mul_l. f_equal. lia. Qed.

Lemma wrap_add a b : wrap (a + b) = wrap (wrap a + wrap b).
Proof.
  rewrite wrap_add_l, (Z.add_comm a (wrap b)), wrap_add_l. f_equal. lia.
Qed.

(** Sums whose terms agree after wrapping agree after wrapping. *)
Lemma sum_wrap_ext (f g : Z → Z) (l : list Z) :
  (∀ k, k ∈ l → wrap (f k) = wrap (g k)) →
  wrap (foldr Z.add 0 (f <$> l)) = wrap (foldr Z.add 0 (g <$> l)).
Proof.
  induction l as [|k l IH]; intros H; [done|].
  rewrite !fmap_cons. cbn [foldr].
  rewrite wrap_add, (wrap_add (g k)), (H k) by left.
  rewrite IH; [done|]. intros k' Hk'. apply H. by right.
Qed.

Lemma sum_add (f g : Z → Z) (l : list Z) :
  foldr Z.add 0 (f <$> l) + foldr Z.add 0 (g <$> l)
  = foldr Z.add 0 ((λ k, f k + g k) <$> l).
Proof.
  induction l as [|k l IH]; [done|]. rewrite !fmap_cons. cbn [foldr]. lia.
Qed.

Lemma sum_scale (f : Z → Z) (c : Z) (l : list Z) :
  foldr Z.add 0 (f <$> l) * c = foldr Z.add 0 ((λ k, f k * c) <$> l).
Proof.
  induction l as [|k l IH]; [done|]. rewrite !fmap_cons. cbn [foldr]. lia.
Qed.

(** The order of two summations can be exchanged. *)
Lemma sum_swap (f : Z → Z → Z) (l1 l2 : list Z) :
  foldr Z.add 0 ((λ k, foldr Z.add 0 ((λ j, f j k) <$> l2)) <$> l1)
  = foldr Z.add 0 ((λ j, foldr Z.add 0 ((λ k, f j k) <$> l1)) <$> l2).
Proof.
  induction l1 as [|k l1 IH].
  - simpl. symmetry. by apply sum_zero.
  - rewrite fmap_cons. cbn [foldr]. rewrite IH, sum_add. done.
Qed.

(** What [multiply] returns, as dimensions and cells. *)
Lemma multiply_data A B :
  wf A → wf B → cols A = rows B →
  ∃ d, multiply A B = Ret (mkMatrix (rows A) (cols B) d) ∧
       wf (mkMatrix (rows A) (cols B) d) ∧
       ∀ i j, 0 ≤ i < rows A → 0 ≤ j < cols B →
         cell d i j = wrap (inner A B i j).
Proof.
  intros HA HB Hdim.
  destruct (multiply_frame_spec A B HA HB Hdim) as (d & Hrun & Hs & Hi & Hc).
  exists d. split_and!.
  - unfold multiply. by rewrite Hrun.
  - by apply wf_result.
  - intros i j Hi' Hj'. rewrite Hc by done. apply inner_int_inner.
Qed.

(** X16: [multiply] is associative, wrap-around included: for operands of
    matching dimensions, multiplying [A * B] by [C] and [A] by [B * C]
    return the same matrix. *)
Theorem multiply_assoc (A B C : Matrix) :
  wf A → wf B → wf C → cols A = rows B → cols B = rows C →
  ∃ AB BC R, multiply A B = Ret AB ∧ multiply B C = Ret BC ∧
             multiply AB C = Ret R ∧ multiply A BC = Ret R.
Proof.
  intros HA HB HC Hab Hbc.
  destruct (multiply_data A B HA HB Hab) as (dAB & HAB & HwfAB & HcAB).
  destruct (multiply_data B C HB HC Hbc) as (dBC & HBC & HwfBC & HcBC).
  destruct (multiply_data _ C HwfAB HC Hbc) as (d1 & H1 & Hwf1 & Hc1).
  destruct (multiply_data A _ HA HwfBC Hab) as (d2 & H2 & Hwf2 & Hc2).
  simpl in *.
  exists (mkMatrix (rows A) (cols B) dAB), (mkMatrix (rows B) (cols C) dBC),
    (mkMatrix (rows A) (cols C) d1).
  split; [done|]. split; [done|]. split; [done|]. rewrite H2. f_equal.
  apply matrix_ext; simpl; try done.
  intros i l Hi Hl. symmetry. rewrite Hc1, Hc2 by done.
  unfold inner, sum_to. simpl.
  pose proof HA as (_ & HcA & _). pose proof HB as (_ & HcB & _).
  set (f := λ j k, cell (data A) i j * cell (data B) j k * cell (data C) k l).
  trans (wrap (foldr Z.add 0
                 ((λ k, foldr Z.add 0 ((λ j, f j k) <$> seqZ 0 (cols A)))
                    <$> seqZ 0 (cols B)))).
  { apply sum_wrap_ext. intros k Hk%elem_of_seqZ. rewrite HcAB by lia.
    rewrite wrap_mul_l. f_equal. unfold inner, sum_to. by rewrite sum_scale. }
  trans (wrap (foldr Z.add 0
                 ((λ j, foldr Z.add 0 ((λ k, f j k) <$> seqZ 0 (cols B)))
                    <$> seqZ 0 (cols A)))).
  { f_equal. apply sum_swap. }
  symmetry. apply sum_wrap_ext. intros j Hj%elem_of_seqZ. rewrite HcBC by lia.
  rewrite wrap_mul_r. f_equal. unfold inner, sum_to.
  rewrite Z.mul_comm, sum_scale. f_equal. apply list_fmap_ext.
  intros _ k _. unfold f. lia.
Qed.

Lemma multiply_assoc_witness :
  ∃ AB BC R, multiply mA mB = Ret AB ∧ multiply mB mA = Ret BC ∧
             multiply AB mA = Ret R ∧ multiply mA BC = Ret R.
Proof. apply (multiply_assoc mA mB mA wf_mA wf_mB wf_mA); reflexivity. Defined.
